(** * M1-Actividad: the vacuum-cleaner simulation of [M1Actividad.py]

    A shallow embedding of [VacuumAgent] and [VacuumModel] and the
    properties of the simulation engine.

    Python integers are [Z]; a float is the rational it stands for, and
    an operation on floats rounds as binary64 does; the set [dirty_cells]
    is a [gset (Z * Z)]; the list [agents_list] is a [list VacuumAgent].
    Exceptions are the [Raise] outcome of [result]; the only unbounded loop
    of the program (the sampling loop of [__init__]) runs on fuel and
    reports [Diverge] when the fuel is exhausted.

    The pseudo-random generators are library objects: they are taken as a
    parameter, the class [Random], whose single primitive [randbelow] is
    the one [randrange], [choice] and [shuffle] are built on. *)

From Stdlib Require Import ZArith QArith Qround Lia Lqa List.
From stdpp Require Import base decidable option list gmap sets fin_sets.

Local Open Scope Z_scope.

(** ** Outcomes of a computation *)

(** The Python exceptions the modelled code can meet. *)
Inductive exn : Type :=
| KeyError      (* set.remove of an absent element *)
| ValueError    (* randrange on an empty range *)
| IndexError    (* choice on an empty sequence, indexing outside a list *)
| OutOfBounds.  (* the grid refusing a position outside a non-toroidal space *)

Inductive result (A : Type) : Type :=
| Ok (a : A)
| Raise (e : exn)
| Diverge.

Arguments Ok {A} a.
Arguments Raise {A} e.
Arguments Diverge {A}.

(** Sequencing: an exception or a divergence ends the computation.  The
    instances give [result] the notation [x ← r; k] of the library. *)
#[global] Instance result_bind : MBind result := λ A B k r,
  match r with
  | Ok a => k a
  | Raise e => Raise e
  | Diverge => Diverge
  end.

#[global] Instance result_ret : MRet result := λ A a, Ok a.


(** ** Floating point *)

(** A Python float is a binary64 number.  Its value is kept as a rational;
    an operation computes the exact result and rounds it to 53 significant
    bits, to nearest and to even on a tie.  The exponent is not bounded:
    overflow and subnormal numbers are outside the model. *)

(** [a / b] rounded to the nearest integer, to the even one on a tie. *)
Definition rne_div (a b : Z) : Z :=
  let f := a / b in
  match 2 * (a mod b) ?= b with
  | Lt => f
  | Gt => f + 1
  | Eq => if Z.even f then f else f + 1
  end.

(** The exponent of the last place of the format at [n / d]: the [e] with
    [2^52 ≤ (n / d) / 2^e < 2^53]. *)
Definition ulp_exp (n d : Z) : Z :=
  let e0 := Z.log2 n - Z.log2 d - 53 in
  if (if e0 <=? 0 then 2 ^ 53 * d <=? n * 2 ^ (- e0) else 2 ^ 53 * d * 2 ^ e0 <=? n)
  then e0 + 1 else e0.

Definition round_pos (n d : Z) : Q :=
  let e := ulp_exp n d in
  if e <=? 0 then Qmake (rne_div (n * 2 ^ (- e)) d) (Z.to_pos (2 ^ (- e)))
  else inject_Z (rne_div n (d * 2 ^ e) * 2 ^ e).

(** The binary64 number nearest to [q]. *)
Definition round64 (q : Q) : Q :=
  match Qnum q with
  | Z0 => 0%Q
  | Zpos n => round_pos (Zpos n) (Zpos (Qden q))
  | Zneg n => (- round_pos (Zpos n) (Zpos (Qden q)))%Q
  end.

(** [float(n)], [a * b] and [a / b] on floats. *)
Definition float_of_int (n : Z) : Q := round64 (inject_Z n).
Definition fmul (a b : Q) : Q := round64 (a * b).
Definition fdiv (a b : Q) : Q := round64 (a / b).

(** ** The random generators *)

(** [randbelow g n] is CPython's [Random._randbelow]: for [0 < n] it
    returns a number in [[0, n)] and the next state of the generator. *)
Class Random (G : Type) : Type := {
  randbelow : G → Z → Z * G;
  randbelow_range : ∀ g n, 0 < n → 0 ≤ (randbelow g n).1 < n
}.

Section Library.
Context {G : Type} `{Random G}.

(** [random.randrange(n)] *)
Definition randrange (g : G) (n : Z) : result (Z * G) :=
  if 0 <? n then Ok (randbelow g n) else Raise ValueError.

(** [random.choice(seq)]: [seq[randbelow(len(seq))]] *)
Definition choice {A : Type} (g : G) (seq : list A) : result (A * G) :=
  match seq with
  | [] => Raise IndexError
  | _ =>
      let '(i, g') := randbelow g (Z.of_nat (length seq)) in
      match seq !! Z.to_nat i with
      | Some a => Ok (a, g')
      | None => Raise IndexError
      end
  end.

(** [x[i], x[j] = x[j], x[i]]; outside the list Python raises, here the
    list is left as it is (the indices of [shuffle] are always inside). *)
Definition swap {A : Type} (x : list A) (i j : nat) : list A :=
  match x !! i, x !! j with
  | Some xi, Some xj => <[j := xi]> (<[i := xj]> x)
  | _, _ => x
  end.

(** [random.shuffle(x)]:
    [for i in reversed(range(1, len(x))): j = randbelow(i + 1); swap]. *)
Fixpoint shuffle_from {A : Type} (i : nat) (g : G) (x : list A) : G * list A :=
  match i with
  | O => (g, x)
  | S i' =>
      let '(j, g') := randbelow g (Z.of_nat (S i)) in
      shuffle_from i' g' (swap x i (Z.to_nat j))
  end.

Definition shuffle {A : Type} (g : G) (x : list A) : G * list A :=
  shuffle_from (length x - 1)%nat g x.
End Library.

(** ** The grid *)

(** A coordinate [(x, y)]. *)
Abbreviation Coord := (Z * Z)%type.

(** [MultiGrid(width, height, torus=False)] *)
Record MultiGrid : Type := {
  width : Z;
  height : Z
}.

(** [grid.out_of_bounds(pos)] *)
Definition out_of_bounds (grid : MultiGrid) (pos : Coord) : bool :=
  let '(x, y) := pos in
  (x <? 0) || (x >=? width grid) || (y <? 0) || (y >=? height grid).

Definition in_bounds (grid : MultiGrid) (pos : Coord) : Prop :=
  0 ≤ pos.1 < width grid ∧ 0 ≤ pos.2 < height grid.

(** The offsets [dx], [dy] of the enumeration, each over [range(-1, 2)]. *)
Definition offsets : list (Z * Z) :=
  dx ← [-1; 0; 1]; dy ← [-1; 0; 1]; [(dx, dy)].

(** Modelled from the spec: [grid.get_neighborhood(pos, moore=True,
    include_center=False, radius=1)] is a method of the grid library, which
    is not part of the repository.  Section 4.1: the up-to-8 adjacent
    coordinates of the Moore neighbourhood, the centre excluded, filtered
    to those within bounds; nothing is clamped or wrapped. *)
Definition get_neighborhood (grid : MultiGrid) (pos : Coord) : list Coord :=
  let '(x, y) := pos in
  List.filter (λ p, negb (out_of_bounds grid p) && negb (bool_decide (p = pos)))
    (List.map (λ d : Z * Z, (x + d.1, y + d.2)) offsets).

(** Two cells are Moore neighbours when they differ by an offset of at
    most one in each coordinate, and are not the same cell. *)
Definition moore_neighbor (p q : Coord) : Prop :=
  ∃ dx dy : Z, q = (p.1 + dx, p.2 + dy) ∧ -1 ≤ dx ≤ 1 ∧ -1 ≤ dy ≤ 1 ∧ (dx, dy) ≠ (0, 0).

(** Every coordinate of an [M] x [N] grid. *)
Definition all_cells (M N : Z) : list Coord := list_prod (seqZ 0 M) (seqZ 0 N).

(** ** The agent *)

Record VacuumAgent : Type := {
  unique_id : Z;
  pos : Coord;
  moves : Z
}.

(** [grid.place_agent(a, (0, 0))]: the cell list [_grid[0][0]] exists only
    in a grid with a positive width and height. *)
Definition place_agent (grid : MultiGrid) (id : Z) (p : Coord) : result VacuumAgent :=
  if out_of_bounds grid p then Raise IndexError
  else Ok {| unique_id := id; pos := p; moves := 0 |}.

(** [grid.move_agent(agent, pos)]: a non-toroidal grid refuses a position
    outside its bounds. *)
Definition move_agent (grid : MultiGrid) (a : VacuumAgent) (p : Coord) : result VacuumAgent :=
  if out_of_bounds grid p then Raise OutOfBounds
  else Ok {| unique_id := unique_id a; pos := p; moves := moves a |}.

(** [s.remove(c)] on a Python set *)
Definition set_remove (c : Coord) (s : gset Coord) : result (gset Coord) :=
  if decide (c ∈ s) then Ok (s ∖ {[c]}) else Raise KeyError.

(** The agents as [__init__] leaves them. *)
Definition fresh_agent (i : Z) : VacuumAgent :=
  {| unique_id := i; pos := (0, 0); moves := 0 |}.

(** What a turn does to the registry and to the agent. *)
Inductive turn_outcome (grid : MultiGrid) (dirty : gset Coord) (a : VacuumAgent)
  : gset Coord → VacuumAgent → Prop :=
| turn_cleaned :
    pos a ∈ dirty →
    turn_outcome grid dirty a (dirty ∖ {[pos a]}) a
| turn_stuck :
    pos a ∉ dirty →
    List.filter (λ p, negb (out_of_bounds grid p)) (get_neighborhood grid (pos a)) = [] →
    turn_outcome grid dirty a dirty a
| turn_moved (p : Coord) :
    pos a ∉ dirty →
    In p (get_neighborhood grid (pos a)) →
    in_bounds grid p →
    turn_outcome grid dirty a dirty
      {| unique_id := unique_id a; pos := p; moves := moves a + 1 |}.

(** How an agent after its turn relates to the agent before it. *)
Definition turn_rel (grid : MultiGrid) (a a' : VacuumAgent) : Prop :=
  unique_id a' = unique_id a ∧ moves a' = 0 ∧
  (pos a' = pos a ∨ (moore_neighbor (pos a) (pos a') ∧ in_bounds grid (pos a'))).

Section Engine.
Context {G : Type} `{Random G}.

(** [VacuumAgent.step]: the generator is the global one of module
    [random]; [dirty] is [self.model.dirty_cells]. *)
Definition agent_step (grid : MultiGrid) (g : G) (dirty : gset Coord) (a : VacuumAgent)
  : result (G * gset Coord * VacuumAgent) :=
  if decide (pos a ∈ dirty) then
    dirty' ← set_remove (pos a) dirty;
    Ok (g, dirty', a)
  else
    let neighbors := get_neighborhood grid (pos a) in
    let valid_neighbors := List.filter (λ p, negb (out_of_bounds grid p)) neighbors in
    match valid_neighbors with
    | [] => Ok (g, dirty, a)
    | _ =>
        '(new_position, g') ← choice g valid_neighbors;
        a' ← move_agent grid a new_position;
        Ok (g', dirty, {| unique_id := unique_id a'; pos := pos a'; moves := moves a' + 1 |})
    end.

(** One turn of the loop of [VacuumModel.step]:
    [agent.step(); self.total_moves += agent.moves; agent.moves = 0]. *)
Definition agent_turn (grid : MultiGrid) (g : G) (dirty : gset Coord) (total : Z)
    (a : VacuumAgent) : result (G * gset Coord * Z * VacuumAgent) :=
  '(g', dirty', a') ← agent_step grid g dirty a;
  Ok (g', dirty', total + moves a',
      {| unique_id := unique_id a'; pos := pos a'; moves := 0 |}).

(** [for agent in self.agents_list: ...] *)
Fixpoint agents_loop (grid : MultiGrid) (g : G) (dirty : gset Coord) (total : Z)
    (todo : list VacuumAgent) : result (G * gset Coord * Z * list VacuumAgent) :=
  match todo with
  | [] => Ok (g, dirty, total, [])
  | a :: rest =>
      '(g1, dirty1, total1, a1) ← agent_turn grid g dirty total a;
      '(g2, dirty2, total2, rest') ← agents_loop grid g1 dirty1 total1 rest;
      Ok (g2, dirty2, total2, a1 :: rest')
  end.

(** ** The model *)

Record VacuumModel : Type := {
  grid : MultiGrid;
  tiempo_max : Z;
  num_agents : Z;
  dirty_cells : gset Coord;
  agents_list : list VacuumAgent;
  step_count : Z;
  total_moves : Z;
  running : bool;        (* set to [True] by the base class *)
  random_ : G            (* [self.random], the generator of the model *)
}.

(** [VacuumModel.step]; [g] is the global generator. *)
Definition step (g : G) (m : VacuumModel) : result (G * VacuumModel) :=
  let '(g0, order) := shuffle g (agents_list m) in
  '(g1, dirty, total, agents) ←
    agents_loop (grid m) g0 (dirty_cells m) (total_moves m) order;
  let count := step_count m + 1 in
  Ok (g1, {| grid := grid m;
             tiempo_max := tiempo_max m;
             num_agents := num_agents m;
             dirty_cells := dirty;
             agents_list := agents;
             step_count := count;
             total_moves := total;
             running := if bool_decide (dirty = ∅) || (count >=? tiempo_max m)
                        then false else running m;
             random_ := random_ m |}).

(** ** Construction *)

(** [int(q)] truncates towards zero. *)
Definition py_int (q : Q) : Z := Z.quot (Qnum q) (Zpos (Qden q)).

(** [num_sucias = int(total_celdas * porcentaje_sucias / 100)]: the
    percentage is a float, so the integer [total_celdas] is converted and
    the product is a float; so is the quotient by [100]. *)
Definition num_sucias (M N : Z) (porcentaje_sucias : Q) : Z :=
  let total_celdas := M * N in
  py_int (fdiv (fmul (float_of_int total_celdas) porcentaje_sucias) (float_of_int 100)).

(** The sampling loop of [__init__]:
    [while len(dirty_cells) < num_sucias: x = randrange(M); y = randrange(N);
     dirty_cells.add((x, y))].  It has no bound of its own: [fuel] is the
    number of iterations allowed. *)
Fixpoint sample_dirty (fuel : nat) (g : G) (M N target : Z) (dirty : gset Coord)
  : result (G * gset Coord) :=
  if Z.of_nat (size dirty) <? target then
    match fuel with
    | O => Diverge
    | S fuel' =>
        '(x, g1) ← randrange g M;
        '(y, g2) ← randrange g1 N;
        sample_dirty fuel' g2 M N target ({[(x, y)]} ∪ dirty)
    end
  else Ok (g, dirty).

(** [for i in range(num_agents): a = VacuumAgent(i, self); append;
     place_agent(a, (0, 0))] *)
Fixpoint create_agents (grid : MultiGrid) (ids : list Z) : result (list VacuumAgent) :=
  match ids with
  | [] => Ok []
  | i :: rest =>
      a ← place_agent grid i (0, 0);
      l ← create_agents grid rest;
      Ok (a :: l)
  end.

(** [VacuumModel.__init__]; [g] is the initial state of [self.random]. *)
Definition init (fuel : nat) (g : G) (M N num_agents : Z) (porcentaje_sucias : Q)
    (tiempo_max : Z) : result VacuumModel :=
  let grid := {| width := M; height := N |} in
  '(g', dirty) ← sample_dirty fuel g M N (num_sucias M N porcentaje_sucias) ∅;
  agents ← create_agents grid (seqZ 0 num_agents);
  Ok {| grid := grid;
        tiempo_max := tiempo_max;
        num_agents := num_agents;
        dirty_cells := dirty;
        agents_list := agents;
        step_count := 0;
        total_moves := 0;
        running := true;
        random_ := g' |}.

(** ** Runs *)

(** [n] calls of [step], whatever the flag says. *)
Fixpoint ticks (n : nat) (g : G) (m : VacuumModel) : result (G * VacuumModel) :=
  match n with
  | O => Ok (g, m)
  | S n' => '(g', m') ← ticks n' g m; step g' m'
  end.

(** The driver of the script: [while model.running: model.step()]. *)
Fixpoint simulate (fuel : nat) (g : G) (m : VacuumModel) : result (G * VacuumModel) :=
  if running m then
    match fuel with
    | O => Diverge
    | S fuel' => '(g', m') ← step g m; simulate fuel' g' m'
    end
  else Ok (g, m).



(** The cell an iteration of the sampling loop draws, and the generator
    it leaves. *)
Definition draw_cell (M N : Z) (g : G) : Coord * G :=
  let '(x, g1) := randbelow g M in
  let '(y, g2) := randbelow g1 N in
  ((x, y), g2).

(** The generator after [i] iterations of the loop. *)
Definition after (M N : Z) (i : nat) (g : G) : G :=
  Nat.iter i (λ g', (draw_cell M N g').2) g.

(** A generator is fair for the sampling of an [M] x [N] grid when, at
    any point of the sequence of cells it draws, every cell of the grid
    is still to come.  A sequence of independent uniform draws is fair
    with probability one. *)
Definition fair (M N : Z) (g : G) : Prop :=
  ∀ (i : nat) (c : Coord),
    in_bounds {| width := M; height := N |} c →
    ∃ j : nat, (draw_cell M N (after M N (i + j) g)).1 = c.




End Engine.

Arguments VacuumModel G : clear implicits.

(** The states of an engine built with the dimensions [M] and [N], both at
    least one: those the construction returns, and those a call of [step]
    leads to. *)
Inductive reachable {G : Type} `{Random G} (M N : Z) : VacuumModel G → Prop :=
| reachable_init fuel g k p T m :
    1 ≤ M → 1 ≤ N →
    init fuel g M N k p T = Ok m →
    reachable M N m
| reachable_step g m g' m' :
    reachable M N m →
    step g m = Ok (g', m') →
    reachable M N m'.

(** The invariant of the engine. *)
Record model_inv {G : Type} (m : VacuumModel G) : Prop := {
  inv_dirty : ∀ c, c ∈ dirty_cells m → in_bounds (grid m) c;
  inv_agents : Forall (λ a, in_bounds (grid m) (pos a) ∧ moves a = 0) (agents_list m)
}.



(** ** A generator to run the engine on *)

(** A linear congruential generator with a full period modulo 16; a draw
    below [n] takes the high bits of the new state. *)
Definition lcg_next (s : Z) : Z := (5 * s + 3) mod 16.

Definition lcg_randbelow (s : Z) (n : Z) : Z * Z :=
  ((lcg_next s / 4) mod n, lcg_next s).

#[global] Instance lcg : Random Z := {|
  randbelow := lcg_randbelow;
  randbelow_range := λ s n Hn, Z.mod_pos_bound (lcg_next s / 4) n Hn
|}.

(** A small engine to run the theorems on: a 2 x 2 grid, three agents,
    half of the cells dirty, four ticks allowed. *)
Definition demo_model : VacuumModel Z :=
  {| grid := {| width := 2; height := 2 |};
     tiempo_max := 4;
     num_agents := 3;
     dirty_cells := {[(0, 0); (0, 1)]};
     agents_list := fresh_agent <$> [0; 1; 2];
     step_count := 0;
     total_moves := 0;
     running := true;
     random_ := 5 |}.

(** A run with a step budget of zero: one cell, dirty, and no agent. *)
Definition budget0_model : VacuumModel Z :=
  {| grid := {| width := 1; height := 1 |};
     tiempo_max := 0;
     num_agents := 0;
     dirty_cells := {[(0, 0)]};
     agents_list := [];
     step_count := 0;
     total_moves := 0;
     running := true;
     random_ := 11 |}.

(** The engine of a 5 x 5 grid with three agents and no dirt, after its
    first tick: Finished. *)
Definition finished_model : VacuumModel Z :=
  {| grid := {| width := 5; height := 5 |};
     tiempo_max := 5;
     num_agents := 3;
     dirty_cells := ∅;
     agents_list :=
       [ {| unique_id := 2; pos := (1, 1); moves := 0 |};
         {| unique_id := 0; pos := (1, 1); moves := 0 |};
         {| unique_id := 1; pos := (1, 1); moves := 0 |} ];
     step_count := 1;
     total_moves := 3;
     running := false;
     random_ := 1 |}.

(** ** The script *)

(** The report of the script after the run:
    [total_celdas = M * N; limpias = total_celdas - len(model.dirty_cells);
     porcentaje_limpias = (limpias / total_celdas) * 100], printed with the
    step count and the total of moves.  [None] is the [ZeroDivisionError]
    of the quotient. *)
Definition summary {G : Type} (M N : Z) (model : VacuumModel G)
  : option (Z * Z * Z * Q * Z) :=
  let total_celdas := M * N in
  let limpias := total_celdas - Z.of_nat (size (dirty_cells model)) in
  if total_celdas =? 0 then None
  else
    let porcentaje_limpias :=
      fmul (fdiv (inject_Z limpias) (inject_Z total_celdas)) (float_of_int 100) in
    Some (step_count model, limpias, total_celdas, porcentaje_limpias,
          total_moves model).

(** The script: build the model, run it until it stops, report. *)
Definition main {G : Type} `{Random G} (fuel_init fuel_run : nat)
    (seed_model seed_global : G) (M N num_agents : Z) (porcentaje_sucias : Q)
    (tiempo_max : Z) : result (option (Z * Z * Z * Q * Z)) :=
  model ← init fuel_init seed_model M N num_agents porcentaje_sucias tiempo_max;
  '(_, model') ← simulate fuel_run seed_global model;
  Ok (summary M N model').

(** What every reachable state keeps of the population and the counters:
    the agents are those that were created, the total of moves is at most
    one per agent and tick, and an agent is no further from its start
    (0,0) than the number of ticks. *)
Record run_inv {G : Type} (m : VacuumModel G) : Prop := {
  inv_ids : unique_id <$> agents_list m ≡ₚ seqZ 0 (num_agents m);
  inv_count : 0 ≤ step_count m;
  inv_total : 0 ≤ total_moves m ≤ step_count m * Z.of_nat (length (agents_list m));
  inv_reach : Forall (λ a, (pos a).1 ≤ step_count m ∧ (pos a).2 ≤ step_count m)
                (agents_list m)
}.

(** A grid of 2 x 2 cells with one dirty cell, no agent and a budget of
    three ticks. *)
Definition idle_model : VacuumModel Z :=
  {| grid := {| width := 2; height := 2 |};
     tiempo_max := 3;
     num_agents := 0;
     dirty_cells := {[(0, 0)]};
     agents_list := [];
     step_count := 0;
     total_moves := 0;
     running := true;
     random_ := 1 |}.

(** * Lemmas on the library and the engine *)

(** ** The library functions *)

Lemma out_of_bounds_false (grid : MultiGrid) (p : Coord) :
  out_of_bounds grid p = false ↔ in_bounds grid p.
Proof.
  destruct p as [x y]. unfold out_of_bounds, in_bounds. simpl.
  rewrite !orb_false_iff, !Z.ltb_ge, !Z.geb_leb, !Z.leb_gt. lia.
Qed.


Lemma elem_of_offsets (d : Z * Z) :
  d ∈ offsets → -1 ≤ d.1 ≤ 1 ∧ -1 ≤ d.2 ≤ 1.
Proof.
  unfold offsets. cbn. rewrite !elem_of_cons, elem_of_nil.
  intros Hd. repeat destruct Hd as [-> | Hd]; simpl; lia.
Qed.

Lemma elem_of_get_neighborhood (grid : MultiGrid) (p q : Coord) :
  In q (get_neighborhood grid p) → in_bounds grid q ∧ moore_neighbor p q.
Proof.
  destruct p as [x y]. unfold get_neighborhood.
  rewrite filter_In, in_map_iff, andb_true_iff, !negb_true_iff.
  intros [(d & <- & Hd) [Hin Hne]].
  apply bool_decide_eq_false in Hne. apply out_of_bounds_false in Hin.
  apply list_elem_of_In, elem_of_offsets in Hd.
  split; [exact Hin |].
  exists d.1, d.2. simpl. repeat split; try lia.
  intros Heq. apply Hne. destruct d as [dx dy]. simpl in *.
  injection Heq as -> ->. f_equal; lia.
Qed.

Section LibraryFacts.
Context {G : Type} `{Random G}.

Lemma choice_ok {A : Type} (g : G) (seq : list A) :
  seq ≠ [] → ∃ a g', choice g seq = Ok (a, g') ∧ In a seq.
Proof.
  intros Hne. unfold choice.
  destruct seq as [| a0 seq0] eqn:Hseq; [done |]. rewrite <- Hseq.
  assert (Hlen : 0 < Z.of_nat (length seq)) by (subst seq; simpl; lia).
  pose proof (randbelow_range g _ Hlen) as Hr.
  destruct (randbelow g (Z.of_nat (length seq))) as [i g'] eqn:Hi. simpl in Hr.
  destruct (lookup_lt_is_Some_2 seq (Z.to_nat i)) as [a Ha]; [lia |].
  rewrite Ha. exists a, g'. split; [reflexivity |].
  apply list_elem_of_In. eapply list_elem_of_lookup_2. exact Ha.
Qed.

Lemma swap_Permutation {A : Type} (x : list A) (i j : nat) : swap x i j ≡ₚ x.
Proof.
  unfold swap. destruct (x !! i) as [xi |] eqn:Hi; [| done].
  destruct (x !! j) as [xj |] eqn:Hj; [| done].
  by apply Permutation_insert_swap.
Qed.

Lemma shuffle_from_Permutation {A : Type} (i : nat) (g : G) (x : list A) :
  (shuffle_from i g x).2 ≡ₚ x.
Proof.
  revert g x. induction i as [| i IH]; intros g x; [done |].
  cbn [shuffle_from]. destruct (randbelow g _) as [j g'].
  etrans; [apply IH | apply swap_Permutation].
Qed.

(** The activation order is a permutation of the agents. *)
Lemma shuffle_Permutation {A : Type} (g : G) (x : list A) : (shuffle g x).2 ≡ₚ x.
Proof. apply shuffle_from_Permutation. Qed.
End LibraryFacts.

(** ** One agent, one turn *)

Section EngineFacts.
Context {G : Type} `{Random G}.
Implicit Types (g : G) (m : VacuumModel G) (a : VacuumAgent) (dirty : gset Coord).

Lemma agent_step_outcome grid g dirty a :
  ∃ g' dirty' a',
    agent_step grid g dirty a = Ok (g', dirty', a') ∧ turn_outcome grid dirty a dirty' a'.
Proof.
  unfold agent_step. destruct (decide (pos a ∈ dirty)) as [Hin | Hout].
  - unfold set_remove. rewrite decide_True by exact Hin. cbn.
    eexists _, _, _. split; [reflexivity |]. by constructor.
  - destruct (List.filter _ (get_neighborhood grid (pos a))) as [| p0 ps] eqn:Hvalid.
    + eexists _, _, _. split; [reflexivity |]. by constructor.
    + destruct (choice_ok g (p0 :: ps)) as (p & g' & -> & Hp); [done |].
      rewrite <- Hvalid in Hp. apply filter_In in Hp as [Hp Hb].
      apply negb_true_iff in Hb. cbn. unfold move_agent. rewrite Hb. cbn.
      eexists _, _, _. split; [reflexivity |].
      apply turn_moved; [exact Hout | exact Hp |]. by apply out_of_bounds_false.
Qed.

Lemma turn_outcome_subseteq grid dirty a dirty' a' :
  turn_outcome grid dirty a dirty' a' → dirty' ⊆ dirty.
Proof. destruct 1; [apply subseteq_difference_l | ..]; done. Qed.

Lemma agent_turn_outcome grid g dirty total a :
  ∃ g' dirty' a',
    turn_outcome grid dirty a dirty' a' ∧
    agent_turn grid g dirty total a =
      Ok (g', dirty', total + moves a',
          {| unique_id := unique_id a'; pos := pos a'; moves := 0 |}).
Proof.
  destruct (agent_step_outcome grid g dirty a) as (g' & dirty' & a' & Hstep & Hout).
  exists g', dirty', a'. split; [exact Hout |].
  unfold agent_turn. rewrite Hstep. reflexivity.
Qed.

Lemma turn_outcome_rel grid dirty a dirty' a' :
  turn_outcome grid dirty a dirty' a' →
  turn_rel grid a {| unique_id := unique_id a'; pos := pos a'; moves := 0 |}.
Proof.
  destruct 1 as [| | p ? Hp Hb]; unfold turn_rel; simpl; auto.
  split; [done |]. split; [done |]. right.
  apply elem_of_get_neighborhood in Hp. tauto.
Qed.

(** The loop over the agents never fails; it only removes cells and
    every agent comes out of it with its counter at zero. *)
Lemma agents_loop_spec grid (todo : list VacuumAgent) g dirty total :
  ∃ g' dirty' total' agents',
    agents_loop grid g dirty total todo = Ok (g', dirty', total', agents') ∧
    dirty' ⊆ dirty ∧
    Forall2 (turn_rel grid) todo agents' ∧
    (Forall (λ a, moves a = 0) todo →
     total ≤ total' ≤ total + Z.of_nat (length todo)).
Proof.
  revert g dirty total. induction todo as [| a rest IH]; intros g dirty total.
  - exists g, dirty, total, []. simpl. split_and!; [done | done | constructor | lia].
  - destruct (agent_turn_outcome grid g dirty total a)
      as (g1 & dirty1 & a1 & Hout & Hturn).
    destruct (IH g1 dirty1 (total + moves a1))
      as (g2 & dirty2 & total2 & rest' & Hloop & Hsub & Hrel & Htot).
    exists g2, dirty2, total2,
      ({| unique_id := unique_id a1; pos := pos a1; moves := 0 |} :: rest').
    cbn [agents_loop]. rewrite Hturn. cbn. rewrite Hloop. cbn.
    split_and!; [reflexivity | | |].
    + etrans; [exact Hsub | eapply turn_outcome_subseteq; exact Hout].
    + constructor; [eapply turn_outcome_rel; exact Hout | exact Hrel].
    + intros Hzero. apply Forall_cons in Hzero as [Ha Hrest].
      specialize (Htot Hrest).
      assert (0 ≤ moves a1 ≤ 1) by (destruct Hout; simpl; lia).
      cbn [length]. lia.
Qed.
End EngineFacts.

(** ** One tick *)

Section StepFacts.
Context {G : Type} `{Random G}.
Implicit Types (g : G) (m : VacuumModel G) (a : VacuumAgent) (dirty : gset Coord).

(** [step] never fails, and this is all it does to the model. *)
Lemma step_spec g m :
  ∃ g' m' order,
    step g m = Ok (g', m') ∧
    grid m' = grid m ∧
    tiempo_max m' = tiempo_max m ∧
    step_count m' = step_count m + 1 ∧
    dirty_cells m' ⊆ dirty_cells m ∧
    running m' =
      (if bool_decide (dirty_cells m' = ∅) || (step_count m' >=? tiempo_max m')
       then false else running m) ∧
    order ≡ₚ agents_list m ∧
    Forall2 (turn_rel (grid m)) order (agents_list m') ∧
    (Forall (λ a, moves a = 0) (agents_list m) →
     total_moves m ≤ total_moves m' ≤ total_moves m + Z.of_nat (length (agents_list m))).
Proof.
  unfold step.
  pose proof (shuffle_Permutation g (agents_list m)) as Hperm.
  destruct (shuffle g (agents_list m)) as [g0 order]. simpl in Hperm.
  destruct (agents_loop_spec (grid m) order g0 (dirty_cells m) (total_moves m))
    as (g1 & dirty & total & agents & -> & Hsub & Hrel & Htot).
  cbn. eexists _, _, order. split; [reflexivity |]. cbn.
  split_and!; try done.
  intros Hzero. rewrite <- Hperm in Hzero. rewrite <- Hperm. auto.
Qed.

Lemma step_total g m : ∃ g' m', step g m = Ok (g', m').
Proof. destruct (step_spec g m) as (g' & m' & ? & ? & _). eauto. Qed.

Lemma ticks_total (n : nat) g m : ∃ g' m', ticks n g m = Ok (g', m').
Proof.
  induction n as [| n (g1 & m1 & IH)]; [by eexists _, _ |].
  cbn [ticks]. rewrite IH. cbn. apply step_total.
Qed.

Lemma step_inv g m g' m' :
  model_inv m → step g m = Ok (g', m') → model_inv m'.
Proof.
  intros [Hd Ha] Hstep.
  destruct (step_spec g m)
    as (g1 & m1 & order & Heq & Hgrid & _ & _ & Hsub & _ & Hperm & Hrel & _).
  rewrite Hstep in Heq. injection Heq as <- <-.
  split; rewrite Hgrid.
  - intros c Hc. apply Hd, Hsub, Hc.
  - rewrite <- Hperm in Ha.
    clear -Ha Hrel. induction Hrel as [| a a' l l' Hr _ IH]; [constructor |].
    apply Forall_cons in Ha as [[Hb _] Ha]. constructor; [| by apply IH].
    destruct Hr as (_ & Hz & [Hp | [_ Hp]]); [rewrite Hp |]; done.
Qed.
End StepFacts.

(** ** Construction *)

Section InitFacts.
Context {G : Type} `{Random G}.
Implicit Types (g : G) (m : VacuumModel G) (dirty : gset Coord).

Lemma randrange_ok g (n : Z) :
  0 < n → ∃ x g', randrange g n = Ok (x, g') ∧ randbelow g n = (x, g') ∧ 0 ≤ x < n.
Proof.
  intros Hn. unfold randrange. rewrite (proj2 (Z.ltb_lt 0 n) Hn).
  pose proof (randbelow_range g n Hn) as Hr.
  destruct (randbelow g n) as [x g']. eauto.
Qed.

Lemma size_add_cell (x y : Z) dirty :
  (size ({[(x, y)]} ∪ dirty) = size dirty ∨
   size ({[(x, y)]} ∪ dirty) = S (size dirty))%nat.
Proof.
  destruct (decide ((x, y) ∈ dirty)) as [Hin | Hout].
  - left. f_equal. apply subseteq_union_1_L. by apply singleton_subseteq_l.
  - right. rewrite size_union by (by apply disjoint_singleton_l).
    by rewrite size_singleton.
Qed.

(** Partial correctness of the sampling loop, for any generator. *)
Lemma sample_dirty_spec (M N target : Z) (fuel : nat) g dirty g' dirty' :
  sample_dirty fuel g M N target dirty = Ok (g', dirty') →
  (∀ c, c ∈ dirty → in_bounds {| width := M; height := N |} c) →
  (∀ c, c ∈ dirty' → in_bounds {| width := M; height := N |} c) ∧
  dirty ⊆ dirty' ∧
  Z.of_nat (size dirty') = Z.max (Z.of_nat (size dirty)) target.
Proof.
  revert g dirty. induction fuel as [| fuel IH]; intros g dirty; cbn [sample_dirty];
    destruct (Z.ltb_spec (Z.of_nat (size dirty)) target) as [Hlt | Hge];
    try discriminate;
    try (intros [= <- <-] Hb; split_and!; [done | done | lia]).
  unfold randrange.
  destruct (Z.ltb_spec 0 M) as [HM |]; [| discriminate].
  pose proof (randbelow_range g M HM) as Hx.
  destruct (randbelow g M) as [x g1]. cbn.
  destruct (Z.ltb_spec 0 N) as [HN |]; [| discriminate].
  pose proof (randbelow_range g1 N HN) as Hy.
  destruct (randbelow g1 N) as [y g2]. cbn.
  intros Hrun Hb. simpl in Hx, Hy.
  apply IH in Hrun as (Hb' & Hsub & Hsize).
  - split_and!; [done | by etrans; [apply union_subseteq_r |] |].
    rewrite Hsize. destruct (size_add_cell x y dirty) as [-> | ->]; lia.
  - intros c [->%elem_of_singleton | Hc]%elem_of_union; [| by apply Hb].
    split; simpl; lia.
Qed.

Lemma create_agents_ok (M N : Z) (ids : list Z) :
  1 ≤ M → 1 ≤ N →
  create_agents {| width := M; height := N |} ids = Ok (fresh_agent <$> ids).
Proof.
  intros HM HN. induction ids as [| i ids IH]; [done |].
  cbn [create_agents]. unfold place_agent.
  replace (out_of_bounds _ (0, 0)) with false
    by (symmetry; apply out_of_bounds_false; split; simpl; lia).
  cbn. rewrite IH. reflexivity.
Qed.

(** On a grid with a cell, construction is the sampling loop followed by
    the creation of the agents, which cannot fail. *)
Lemma init_unfold (fuel : nat) g (M N k : Z) (p : Q) (T : Z) :
  1 ≤ M → 1 ≤ N →
  init fuel g M N k p T =
    '(g', dirty) ← sample_dirty fuel g M N (num_sucias M N p) ∅;
    Ok {| grid := {| width := M; height := N |};
          tiempo_max := T;
          num_agents := k;
          dirty_cells := dirty;
          agents_list := fresh_agent <$> seqZ 0 k;
          step_count := 0;
          total_moves := 0;
          running := true;
          random_ := g' |}.
Proof.
  intros HM HN. unfold init.
  destruct (sample_dirty fuel g M N (num_sucias M N p) ∅) as [[g' dirty] | |];
    [| done | done].
  cbn. rewrite create_agents_ok by done. reflexivity.
Qed.

Lemma init_spec (fuel : nat) g (M N k : Z) (p : Q) (T : Z) m :
  1 ≤ M → 1 ≤ N →
  init fuel g M N k p T = Ok m →
  grid m = {| width := M; height := N |} ∧
  tiempo_max m = T ∧
  agents_list m = fresh_agent <$> seqZ 0 k ∧
  step_count m = 0 ∧ total_moves m = 0 ∧ running m = true ∧
  (∀ c, c ∈ dirty_cells m → in_bounds (grid m) c) ∧
  Z.of_nat (size (dirty_cells m)) = Z.max 0 (num_sucias M N p).
Proof.
  intros HM HN. rewrite init_unfold by done.
  destruct (sample_dirty fuel g M N (num_sucias M N p) ∅) as [[g' dirty] | |] eqn:Hs;
    [| done | done].
  cbn. intros [= <-]. cbn.
  apply sample_dirty_spec in Hs as (Hb & _ & Hsize);
    [| by intros c ?%not_elem_of_empty].
  rewrite size_empty in Hsize. split_and!; done.
Qed.

Lemma init_inv (fuel : nat) g (M N k : Z) (p : Q) (T : Z) m :
  1 ≤ M → 1 ≤ N → init fuel g M N k p T = Ok m → model_inv m.
Proof.
  intros HM HN Hinit.
  destruct (init_spec _ _ _ _ _ _ _ _ HM HN Hinit)
    as (Hgrid & _ & Hagents & _ & _ & _ & Hb & _).
  split; [exact Hb |].
  rewrite Hagents, Hgrid. apply Forall_fmap, Forall_forall. intros i _.
  repeat split; simpl; lia.
Qed.

Lemma reachable_inv (M N : Z) m :
  reachable M N m → grid m = {| width := M; height := N |} ∧ model_inv m.
Proof.
  induction 1 as [fuel g k p T m HM HN Hinit | g m g' m' _ [IHg IH] Hstep].
  - split; [| exact (init_inv _ _ _ _ _ _ _ _ HM HN Hinit)].
    by destruct (init_spec _ _ _ _ _ _ _ _ HM HN Hinit) as [? _].
  - split; [| eapply step_inv; eassumption].
    destruct (step_spec g m) as (g1 & m1 & order & Heq & Hgrid & _).
    rewrite Hstep in Heq. injection Heq as <- <-. congruence.
Qed.
End InitFacts.

(** * The properties of the engine *)

Lemma demo_model_init : init 10 (1 : Z) 2 2 3 (50 # 1) 4 = Ok demo_model.
Proof. vm_compute. reflexivity. Qed.


Section Invariants.
Context {G : Type} `{Random G}.
Implicit Types (g : G) (m : VacuumModel G) (a : VacuumAgent) (dirty : gset Coord).

(** C2. In every state reachable from a construction with [1 ≤ M] and
    [1 ≤ N], the position of every agent and every coordinate of the
    dirty-cell set lies in [[0,M) x [0,N)]; and a turn of an agent either
    leaves its position alone or takes it to a Moore neighbour of it that
    is within these bounds: the target is the position plus an offset,
    never a clamped or wrapped coordinate. *)
Theorem bounds_invariant (M N : Z) m :
  reachable M N m →
  (∀ a, a ∈ agents_list m → 0 ≤ (pos a).1 < M ∧ 0 ≤ (pos a).2 < N) ∧
  (∀ c, c ∈ dirty_cells m → 0 ≤ c.1 < M ∧ 0 ≤ c.2 < N) ∧
  (∀ a g dirty, ∃ g' dirty' a',
     agent_step (grid m) g dirty a = Ok (g', dirty', a') ∧
     (pos a' = pos a ∨
      (moore_neighbor (pos a) (pos a') ∧
       0 ≤ (pos a').1 < M ∧ 0 ≤ (pos a').2 < N))).
Proof.
  intros [Hgrid [Hd Ha]]%reachable_inv. rewrite Hgrid in *.
  split_and!.
  - intros a Hin. rewrite Forall_forall in Ha. by destruct (Ha a Hin) as [? _].
  - exact Hd.
  - intros a g dirty.
    destruct (agent_step_outcome {| width := M; height := N |} g dirty a)
      as (g' & dirty' & a' & Hstep & Hout).
    exists g', dirty', a'. split; [exact Hstep |].
    destruct Hout as [| | p _ Hp Hb]; [by left | by left | right].
    apply elem_of_get_neighborhood in Hp as [_ Hp]. split; [exact Hp | exact Hb].
Qed.

(** C4. The dirty-cell set only shrinks: after any number of ticks the
    next tick leaves a subset of the set it found, hence no more cells,
    and a coordinate that is not in the set is not in it afterwards;
    so the set never leaves the one the run started from. *)
Theorem dirty_cells_shrink (n : nat) g m :
  ∃ g1 m1 g2 m2,
    ticks n g m = Ok (g1, m1) ∧
    step g1 m1 = Ok (g2, m2) ∧
    dirty_cells m2 ⊆ dirty_cells m1 ∧
    (size (dirty_cells m2) ≤ size (dirty_cells m1))%nat ∧
    (∀ c, c ∉ dirty_cells m1 → c ∉ dirty_cells m2) ∧
    dirty_cells m1 ⊆ dirty_cells m.
Proof.
  assert (Hticks : ∃ g1 m1, ticks n g m = Ok (g1, m1) ∧ dirty_cells m1 ⊆ dirty_cells m).
  { induction n as [| n (g1 & m1 & Hn & Hsub)]; [by eexists _, _ |].
    destruct (step_spec g1 m1) as (g2 & m2 & _ & Hstep & _ & _ & _ & Hsub2 & _).
    exists g2, m2. cbn [ticks]. rewrite Hn. split; [exact Hstep | by etrans]. }
  destruct Hticks as (g1 & m1 & Hn & Hsub).
  destruct (step_spec g1 m1) as (g2 & m2 & _ & Hstep & _ & _ & _ & Hsub2 & _).
  exists g1, m1, g2, m2. split_and!; try done.
  - by apply subseteq_size.
  - intros c Hc Hc2. apply Hc, Hsub2, Hc2.
Qed.

(** C5. In every reachable state and for every agent of it, whatever the
    dirty-cell set at its turn, the turn adds 0 or 1 to the total of the
    model; when the agent stands on a dirty cell it cleans that cell,
    stays where it is and adds 0; and its counter is back at zero
    after the turn. *)
Theorem moves_per_tick (M N : Z) m a :
  reachable M N m →
  a ∈ agents_list m →
  ∀ g dirty total, ∃ g' dirty' total' a',
    agent_turn (grid m) g dirty total a = Ok (g', dirty', total', a') ∧
    (total' = total ∨ total' = total + 1) ∧
    (pos a ∈ dirty →
     dirty' = dirty ∖ {[pos a]} ∧ total' = total ∧ pos a' = pos a) ∧
    (dirty' ≠ dirty → total' = total ∧ pos a' = pos a) ∧
    moves a' = 0.
Proof.
  intros [_ [_ Ha]]%reachable_inv Hin g dirty total.
  rewrite Forall_forall in Ha. destruct (Ha a Hin) as [_ Hzero].
  destruct (agent_turn_outcome (grid m) g dirty total a)
    as (g' & dirty' & a' & Hout & Hturn).
  eexists _, _, _, _. split; [exact Hturn |]. cbn.
  destruct Hout as [Hd | Hd _ | p Hd _ _]; cbn; rewrite ?Hzero;
    (split; [lia |]);
    (split; [intros; repeat split; try done; lia |]);
    (split; [intros; repeat split; try done; lia | done]).
Qed.

(** C10. Removing the cell of an agent from the dirty-cell set never
    fails.  [remove] raises [KeyError] exactly on an absent element, but
    the turn of an agent calls it only on a coordinate it has just found
    in the set: a turn, a tick and any number of ticks never end in
    [KeyError], in any state at all. *)
Theorem remove_never_fails :
  (∀ (c : Coord) (s : gset Coord), set_remove c s = Raise KeyError ↔ c ∉ s) ∧
  (∀ grid g dirty a, agent_step grid g dirty a ≠ Raise KeyError) ∧
  (∀ g m, step g m ≠ Raise KeyError) ∧
  (∀ n g m, ticks n g m ≠ Raise KeyError).
Proof.
  split_and!.
  - intros c s. unfold set_remove. destruct (decide (c ∈ s)); naive_solver.
  - intros grid g dirty a.
    destruct (agent_step_outcome grid g dirty a) as (? & ? & ? & -> & _). done.
  - intros g m. destruct (step_total g m) as (? & ? & ->). done.
  - intros n g m. destruct (ticks_total n g m) as (? & ? & ->). done.
Qed.
End Invariants.

(** The bounds hold in the state [demo_model]. *)
Lemma bounds_invariant_witness :
  (∀ a, a ∈ agents_list demo_model → 0 ≤ (pos a).1 < 2 ∧ 0 ≤ (pos a).2 < 2) ∧
  (∀ c, c ∈ dirty_cells demo_model → 0 ≤ c.1 < 2 ∧ 0 ≤ c.2 < 2) ∧
  (∀ a (g : Z) dirty, ∃ g' dirty' a',
     agent_step (grid demo_model) g dirty a = Ok (g', dirty', a') ∧
     (pos a' = pos a ∨
      (moore_neighbor (pos a) (pos a') ∧
       0 ≤ (pos a').1 < 2 ∧ 0 ≤ (pos a').2 < 2))).
Proof.
  apply (bounds_invariant 2 2 demo_model).
  eapply reachable_init; [lia | lia | exact demo_model_init].
Defined.

(** A turn of agent 1 of [demo_model], standing on a dirty cell. *)
Lemma moves_per_tick_witness :
  ∃ g' dirty' total' a',
    agent_turn (grid demo_model) (7 : Z) {[(0, 0)]} 0 (fresh_agent 1)
      = Ok (g', dirty', total', a') ∧
    (total' = 0 ∨ total' = 0 + 1) ∧
    (pos (fresh_agent 1) ∈ ({[(0, 0)]} : gset Coord) →
     dirty' = {[(0, 0)]} ∖ {[pos (fresh_agent 1)]} ∧ total' = 0 ∧
     pos a' = pos (fresh_agent 1)) ∧
    (dirty' ≠ {[(0, 0)]} → total' = 0 ∧ pos a' = pos (fresh_agent 1)) ∧
    moves a' = 0.
Proof.
  apply (moves_per_tick 2 2 demo_model (fresh_agent 1)).
  - eapply reachable_init; [lia | lia | exact demo_model_init].
  - cbn. apply list_elem_of_further, list_elem_of_here.
Defined.

(** ** Termination of a run *)

Section Termination.
Context {G : Type} `{Random G}.
Implicit Types (g : G) (m : VacuumModel G).

Lemma init_start (fuel : nat) g (M N k : Z) (p : Q) (T : Z) m :
  init fuel g M N k p T = Ok m →
  running m = true ∧ step_count m = 0 ∧ total_moves m = 0 ∧ tiempo_max m = T.
Proof.
  unfold init.
  destruct (sample_dirty _ _ _ _ _ _) as [[g' dirty] | |]; [| done | done]. cbn.
  destruct (create_agents _ _) as [agents | |]; [| done | done]. cbn.
  by intros [= <-].
Qed.

Lemma step_running g m g' m' :
  step g m = Ok (g', m') →
  tiempo_max m' = tiempo_max m ∧
  step_count m' = step_count m + 1 ∧
  (running m' = false ↔
   running m = false ∨ dirty_cells m' = ∅ ∨ tiempo_max m ≤ step_count m').
Proof.
  intros Hstep.
  destruct (step_spec g m) as (g1 & m1 & _ & Heq & _ & HT & Hc & _ & Hrun & _).
  rewrite Hstep in Heq. injection Heq as <- <-.
  split; [exact HT |]. split; [exact Hc |].
  rewrite Hrun, HT. destruct (bool_decide_reflect (dirty_cells m' = ∅)) as [He | He];
    destruct (Z.geb_spec (step_count m') (tiempo_max m)) as [Hge | Hlt]; cbn;
    try tauto; try (intuition lia).
Qed.

Lemma ticks_finished (n : nat) g m0 :
  running m0 = true →
  ∃ gn mn,
    ticks n g m0 = Ok (gn, mn) ∧
    step_count mn = step_count m0 + Z.of_nat n ∧
    tiempo_max mn = tiempo_max m0 ∧
    (running mn = false ↔
     ∃ (j : nat) gj mj,
       (1 ≤ j ≤ n)%nat ∧ ticks j g m0 = Ok (gj, mj) ∧
       (dirty_cells mj = ∅ ∨ tiempo_max m0 ≤ step_count mj)).
Proof.
  intros Hrun. induction n as [| n (gn & mn & Hn & Hc & HT & IH)].
  - exists g, m0. split_and!; [done | simpl; lia | done |].
    rewrite Hrun. split; [done | intros (j & _ & _ & ? & _); lia].
  - destruct (step_total gn mn) as (g' & m' & Hstep).
    destruct (step_running _ _ _ _ Hstep) as (HT' & Hc' & Hiff).
    exists g', m'. cbn [ticks]. rewrite Hn. cbn.
    split_and!; [exact Hstep | lia | congruence |].
    rewrite Hiff. split.
    + intros [Hfin | Hend].
      * apply IH in Hfin as (j & gj & mj & ? & ? & ?).
        exists j, gj, mj. split_and!; [lia | lia | done | done].
      * exists (S n), g', m'. cbn [ticks]. rewrite Hn. cbn.
        split_and!; [lia | lia | exact Hstep | by rewrite <- HT].
    + intros (j & gj & mj & Hj & Hticks & Hend).
      destruct (decide (j = S n)) as [-> | Hne].
      * right. cbn [ticks] in Hticks. rewrite Hn in Hticks. cbn in Hticks.
        rewrite Hstep in Hticks. injection Hticks as <- <-. by rewrite HT.
      * left. apply IH. exists j, gj, mj. split_and!; [lia | lia | done | done].
Qed.

(** C1, amended.  A run starts Running.  After [n] ticks of it the engine
    is Finished if and only if at the end of one of these ticks the
    dirty-cell set was empty or the step counter had reached the step
    budget (was at least the budget); and a call of [step] on a Running
    engine leaves it Running if and only if it leaves the dirty-cell set
    non-empty and the step counter below the budget. *)
Theorem finished_iff (fuel : nat) (g0 : G) (M N k : Z) (p : Q) (T : Z) m0 g (n : nat) :
  init fuel g0 M N k p T = Ok m0 →
  running m0 = true ∧
  ∃ gn mn,
    ticks n g m0 = Ok (gn, mn) ∧
    step_count mn = Z.of_nat n ∧
    (running mn = false ↔
     ∃ (j : nat) gj mj,
       (1 ≤ j ≤ n)%nat ∧ ticks j g m0 = Ok (gj, mj) ∧
       (dirty_cells mj = ∅ ∨ T ≤ step_count mj)) ∧
    ∃ g' m',
      step gn mn = Ok (g', m') ∧
      (running mn = true →
       (running m' = true ↔ dirty_cells m' ≠ ∅ ∧ step_count m' < T)).
Proof.
  intros (Hrun & Hc0 & _ & HT0)%init_start. split; [exact Hrun |].
  destruct (ticks_finished n g m0 Hrun) as (gn & mn & Hn & Hc & HT & Hiff).
  exists gn, mn. rewrite HT0 in *. split_and!; [exact Hn | lia | exact Hiff |].
  destruct (step_total gn mn) as (g' & m' & Hstep).
  exists g', m'. split; [exact Hstep |]. intros Hrunning.
  destruct (step_running _ _ _ _ Hstep) as (_ & _ & Hfin). rewrite HT in Hfin.
  destruct (running m'); split.
  - intros _. split; [intros He | apply Z.lt_nge; intros Hge];
      (enough (true = false) by done); apply Hfin; auto.
  - done.
  - done.
  - intros [Hne Hlt]. apply proj1 in Hfin.
    destruct (Hfin eq_refl) as [? | [? | ?]]; [congruence | done | lia].
Qed.

(** C6, amended.  [step] has no guard on the running flag: called on a
    Finished engine it is not rejected, it processes one more tick (the
    step counter grows by one) and the engine is still Finished after it.
    The state is terminal for the driver, which tests the flag before
    every tick and calls [step] no more. *)
Theorem step_when_finished g m :
  running m = false →
  (∃ g' m',
     step g m = Ok (g', m') ∧
     step_count m' = step_count m + 1 ∧
     running m' = false) ∧
  ∀ fuel : nat, simulate fuel g m = Ok (g, m).
Proof.
  intros Hfin. split.
  - destruct (step_total g m) as (g' & m' & Hstep).
    destruct (step_running _ _ _ _ Hstep) as (_ & Hc & Hiff).
    exists g', m'. split_and!; [exact Hstep | exact Hc | apply Hiff; by left].
  - intros [| fuel]; cbn [simulate]; by rewrite Hfin.
Qed.
End Termination.

(** C1 as stated fails: with a budget of zero the first tick ends with a
    dirty cell left and a step counter of one, which is not the budget,
    and the engine is Finished all the same. *)
Lemma finished_iff_counterexample :
  init 5 (1 : Z) 1 1 0 (100 # 1) 0 = Ok budget0_model ∧
  running budget0_model = true ∧
  ∃ g' m1,
    step (7 : Z) budget0_model = Ok (g', m1) ∧
    dirty_cells m1 ≠ ∅ ∧
    step_count m1 ≠ tiempo_max m1 ∧
    running m1 = false.
Proof.
  split; [vm_compute; reflexivity |]. split; [reflexivity |].
  eexists _, _. split; [vm_compute; reflexivity |].
  split_and!; [| cbn; lia | reflexivity].
  apply (non_empty_inhabited_L (0, 0)). vm_compute. reflexivity.
Qed.

(** Two ticks of [demo_model]. *)
Lemma finished_iff_witness :
  running demo_model = true ∧
  ∃ gn mn,
    ticks 2 (7 : Z) demo_model = Ok (gn, mn) ∧
    step_count mn = Z.of_nat 2 ∧
    (running mn = false ↔
     ∃ (j : nat) gj mj,
       (1 ≤ j ≤ 2)%nat ∧ ticks j 7 demo_model = Ok (gj, mj) ∧
       (dirty_cells mj = ∅ ∨ 4 ≤ step_count mj)) ∧
    ∃ g' m',
      step gn mn = Ok (g', m') ∧
      (running mn = true →
       (running m' = true ↔ dirty_cells m' ≠ ∅ ∧ step_count m' < 4)).
Proof.
  apply (finished_iff 10 1 2 2 3 (50 # 1) 4 demo_model 7 2).
  vm_compute. reflexivity.
Defined.

(** C6 as stated fails: the engine is Finished after its first tick, and
    a second call of [step] is not rejected: it runs a tick, in which the
    agents move again. *)
Lemma step_when_finished_counterexample :
  ∃ m0 g1 g2 m2,
    init 0 (1 : Z) 5 5 3 (0 # 1) 5 = Ok m0 ∧
    step (7 : Z) m0 = Ok (g1, finished_model) ∧
    running finished_model = false ∧
    step g1 finished_model = Ok (g2, m2) ∧
    step_count m2 = 2 ∧
    total_moves m2 = 6.
Proof.
  eexists _, _, _, _. split; [vm_compute; reflexivity |].
  split; [vm_compute; reflexivity |]. split; [reflexivity |].
  split; [vm_compute; reflexivity |]. split; reflexivity.
Qed.

(** A call of [step] on [finished_model]. *)
Lemma step_when_finished_witness :
  (∃ g' m',
     step (3 : Z) finished_model = Ok (g', m') ∧
     step_count m' = step_count finished_model + 1 ∧
     running m' = false) ∧
  ∀ fuel : nat, simulate fuel (3 : Z) finished_model = Ok (3, finished_model).
Proof. apply (step_when_finished 3 finished_model). reflexivity. Defined.

(** ** The scenario without dirt *)

Section Scenario.
Context {G : Type} `{Random G}.
Implicit Types (g : G) (m : VacuumModel G).

Lemma sample_dirty_done (fuel : nat) g (M N target : Z) (dirty : gset Coord) :
  target ≤ Z.of_nat (size dirty) →
  sample_dirty fuel g M N target dirty = Ok (g, dirty).
Proof.
  intros Hle. destruct fuel; cbn [sample_dirty];
    by rewrite (proj2 (Z.ltb_ge _ _) Hle).
Qed.

(** With nothing to clean, every agent that has a neighbour moves. *)
Lemma agents_loop_all_move grid (todo : list VacuumAgent) g (total : Z) :
  Forall (λ a, moves a = 0 ∧
               List.filter (λ p, negb (out_of_bounds grid p))
                 (get_neighborhood grid (pos a)) ≠ []) todo →
  ∃ g' agents',
    agents_loop grid g ∅ total todo
      = Ok (g', ∅, total + Z.of_nat (length todo), agents').
Proof.
  revert g total. induction todo as [| a rest IH]; intros g total Hall.
  - exists g, []. cbn. do 3 f_equal. lia.
  - apply Forall_cons in Hall as [[Hzero Hvalid] Hrest].
    destruct (agent_turn_outcome grid g ∅ total a)
      as (g1 & dirty1 & a1 & Hout & Hturn).
    cbn [agents_loop]. rewrite Hturn. cbn.
    destruct Hout as [Hin | _ Hnil | p _ _ _]; [by apply not_elem_of_empty in Hin | done |].
    cbn [moves]. destruct (IH g1 (total + (moves a + 1)) Hrest) as (g2 & rest' & ->).
    cbn. eexists _, _. do 3 f_equal. cbn [length]. lia.
Qed.

(** C8. On a 5 x 5 grid with 3 agents, no dirt and a budget of 5 ticks,
    whatever the generators do: construction succeeds, the registry is
    empty and the three agents stand on (0,0); the first call of [step]
    leaves the engine Finished with a step count of 1 and exactly 3
    moves in total. *)
Theorem scenario_no_dirt (fuel : nat) (g0 g : G) :
  ∃ m0,
    init fuel g0 5 5 3 (0 # 1) 5 = Ok m0 ∧
    dirty_cells m0 = ∅ ∧
    pos <$> agents_list m0 = [(0, 0); (0, 0); (0, 0)] ∧
    running m0 = true ∧
    ∃ g' m1,
      step g m0 = Ok (g', m1) ∧
      running m1 = false ∧
      step_count m1 = 1 ∧
      total_moves m1 = 3.
Proof.
  rewrite init_unfold by lia.
  rewrite sample_dirty_done by (rewrite size_empty; vm_compute; discriminate).
  cbn. eexists. split; [reflexivity |]. cbn [dirty_cells agents_list running].
  split_and!; [done | done | done |].
  unfold step. cbn [dirty_cells agents_list grid total_moves step_count tiempo_max
                    running random_ num_agents].
  pose proof (shuffle_Permutation g (fresh_agent <$> seqZ 0 3)) as Hperm.
  destruct (shuffle g (fresh_agent <$> seqZ 0 3)) as [g1 order]. simpl in Hperm.
  destruct (agents_loop_all_move {| width := 5; height := 5 |} order g1 0)
    as (g2 & agents & ->).
  { rewrite Hperm.
    repeat (apply Forall_cons; split; [split; [reflexivity | by vm_compute] |]).
    apply Forall_nil_2. }
  cbn. eexists _, _. split; [reflexivity |]. cbn.
  split_and!; [done | done |].
  by rewrite (Permutation_length Hperm).
Qed.
End Scenario.

(** ** Reproducible runs *)

Section Reproducible.
Context {G : Type} `{Random G}.
Implicit Types (g : G) (m : VacuumModel G).


End Reproducible.


(** Generators that agree on what they draw: the runs of the engine on
    them cannot be told apart.  The two generators may be of different
    kinds; [R] relates the states from which they draw the same numbers. *)
Section SameDraws.
Context {G1 G2 : Type} `{Random G1} `{Random G2}.
Variable R : G1 → G2 → Prop.
Hypothesis same_draws : ∀ g1 g2 n,
  R g1 g2 →
  (randbelow g1 n).1 = (randbelow g2 n).1 ∧ R (randbelow g1 n).2 (randbelow g2 n).2.










End SameDraws.



(** ** Rounding *)

Lemma rne_div_cases (a b : Z) :
  0 < b → rne_div a b = a / b ∨ (rne_div a b = a / b + 1 ∧ a mod b ≠ 0).
Proof.
  intros Hb. unfold rne_div. destruct (Z.compare_spec (2 * (a mod b)) b) as [Heq | Hlt | Hgt].
  - destruct (Z.even (a / b)); [by left |]. right. split; [done | lia].
  - by left.
  - right. split; [done | lia].
Qed.

Lemma rne_div_le (a b K : Z) : 0 < b → a ≤ K * b → rne_div a b ≤ K.
Proof.
  intros Hb Ha. pose proof (Z.div_mod a b ltac:(lia)) as Hdm.
  pose proof (Z.mod_pos_bound a b Hb) as Hm.
  destruct (rne_div_cases a b Hb) as [-> | [-> Hne]]; nia.
Qed.

Lemma rne_div_ge (a b K : Z) : 0 < b → K * b ≤ a → K ≤ rne_div a b.
Proof.
  intros Hb Ha. pose proof (Z.div_mod a b ltac:(lia)) as Hdm.
  pose proof (Z.mod_pos_bound a b Hb) as Hm.
  destruct (rne_div_cases a b Hb) as [-> | [-> Hne]]; nia.
Qed.

Lemma ulp_exp_le (n d j : Z) :
  0 < n → 0 < d → 0 ≤ j → n * 2 ^ j < 2 ^ 53 * d → ulp_exp n d ≤ - j.
Proof.
  intros Hn Hd Hj Hlt. unfold ulp_exp.
  destruct (Z.log2_spec n Hn) as [Hln _]. destruct (Z.log2_spec d Hd) as [_ Hld].
  pose proof (Z.log2_nonneg n) as Hln0. pose proof (Z.log2_nonneg d) as Hld0.
  set (ln := Z.log2 n) in *. set (ld := Z.log2 d) in *.
  assert (He0 : ln - ld - 53 ≤ - j).
  { assert (Hpow : 2 ^ (ln + j) < 2 ^ (53 + Z.succ ld)).
    { rewrite !Z.pow_add_r by lia.
      pose proof (Z.pow_pos_nonneg 2 j ltac:(lia) Hj).
      pose proof (Z.pow_pos_nonneg 2 53 ltac:(lia) ltac:(lia)). nia. }
    apply Z.pow_lt_mono_r_iff in Hpow; lia. }
  destruct (ln - ld - 53 <=? 0) eqn:Hsign; [| apply Z.leb_gt in Hsign; lia].
  destruct (Z.leb_spec (2 ^ 53 * d) (n * 2 ^ (- (ln - ld - 53)))) as [Htest | _]; [| lia].
  destruct (Z.eq_dec (ln - ld - 53) (- j)) as [Heq | Hne]; [| lia].
  rewrite Heq, Z.opp_involutive in Htest. lia.
Qed.

Lemma round_pos_eq (n d j : Z) :
  0 < n → 0 < d → 0 ≤ j → n * 2 ^ j < 2 ^ 53 * d →
  ∃ e' : Z, 0 ≤ e' ∧
    round_pos n d = Qmake (rne_div (n * (2 ^ j * 2 ^ e')) d) (Z.to_pos (2 ^ j * 2 ^ e')).
Proof.
  intros Hn Hd Hj Hlt. pose proof (ulp_exp_le n d j Hn Hd Hj Hlt) as He.
  unfold round_pos. set (e := ulp_exp n d) in *.
  rewrite (proj2 (Z.leb_le e 0)) by lia.
  exists (- e - j). split; [lia |].
  rewrite <- Z.pow_add_r by lia. by replace (j + (- e - j)) with (- e) by lia.
Qed.

Lemma round_pos_upper (n d j k : Z) :
  0 < n → 0 < d → 0 ≤ j → n * 2 ^ j < 2 ^ 53 * d →
  n * 2 ^ j ≤ k * d →
  (round_pos n d * inject_Z (2 ^ j) <= inject_Z k)%Q.
Proof.
  intros Hn Hd Hj Hlt Hk.
  destruct (round_pos_eq n d j Hn Hd Hj Hlt) as (e' & He' & ->).
  pose proof (Z.pow_pos_nonneg 2 j ltac:(lia) Hj) as Hpj.
  pose proof (Z.pow_pos_nonneg 2 e' ltac:(lia) He') as Hpe.
  unfold Qle. cbn [Qnum Qden Qmult inject_Z].
  rewrite Pos.mul_1_r, Z.mul_1_r, Z2Pos.id by nia.
  assert (rne_div (n * (2 ^ j * 2 ^ e')) d ≤ k * 2 ^ e') by (apply rne_div_le; nia).
  nia.
Qed.

Lemma round_pos_lower (n d j k : Z) :
  0 < n → 0 < d → 0 ≤ j → n * 2 ^ j < 2 ^ 53 * d →
  k * d ≤ n * 2 ^ j →
  (inject_Z k <= round_pos n d * inject_Z (2 ^ j))%Q.
Proof.
  intros Hn Hd Hj Hlt Hk.
  destruct (round_pos_eq n d j Hn Hd Hj Hlt) as (e' & He' & ->).
  pose proof (Z.pow_pos_nonneg 2 j ltac:(lia) Hj) as Hpj.
  pose proof (Z.pow_pos_nonneg 2 e' ltac:(lia) He') as Hpe.
  unfold Qle. cbn [Qnum Qden Qmult inject_Z].
  rewrite Pos.mul_1_r, Z.mul_1_r, Z2Pos.id by nia.
  assert (k * 2 ^ e' ≤ rne_div (n * (2 ^ j * 2 ^ e')) d) by (apply rne_div_ge; nia).
  nia.
Qed.


(** What [round64] does to a bound [k / 2^j] on a number below [2^(53-j)]:
    the bound is a multiple of the last place, the rounding stays within. *)
Lemma round64_upper (x : Q) (j k : Z) :
  0 ≤ j → (0 <= x)%Q →
  (x * inject_Z (2 ^ j) < inject_Z (2 ^ 53))%Q →
  (x * inject_Z (2 ^ j) <= inject_Z k)%Q →
  (round64 x * inject_Z (2 ^ j) <= inject_Z k)%Q.
Proof.
  destruct x as [n d]. unfold round64, Qle, Qlt. cbn [Qnum Qden Qmult inject_Z].
  rewrite !Pos.mul_1_r, !Z.mul_1_r. intros Hj Hx Hlt Hk.
  destruct n as [| n | n]; [| | lia].
  - cbn. pose proof (Z.pow_pos_nonneg 2 j ltac:(lia) Hj). nia.
  - pose proof (round_pos_upper (Z.pos n) (Z.pos d) j k) as Hup.
    unfold Qle in Hup. cbn [Qnum Qden Qmult inject_Z] in Hup.
    rewrite !Pos.mul_1_r, !Z.mul_1_r in Hup. apply Hup; lia.
Qed.

Lemma round64_lower (x : Q) (j k : Z) :
  0 ≤ j → (0 <= x)%Q →
  (x * inject_Z (2 ^ j) < inject_Z (2 ^ 53))%Q →
  (inject_Z k <= x * inject_Z (2 ^ j))%Q →
  (inject_Z k <= round64 x * inject_Z (2 ^ j))%Q.
Proof.
  destruct x as [n d]. unfold round64, Qle, Qlt. cbn [Qnum Qden Qmult inject_Z].
  rewrite !Pos.mul_1_r, !Z.mul_1_r. intros Hj Hx Hlt Hk.
  destruct n as [| n | n]; [| | lia].
  - cbn. pose proof (Z.pow_pos_nonneg 2 j ltac:(lia) Hj). nia.
  - pose proof (round_pos_lower (Z.pos n) (Z.pos d) j k) as Hlo.
    unfold Qle in Hlo. cbn [Qnum Qden Qmult inject_Z] in Hlo.
    rewrite !Pos.mul_1_r, !Z.mul_1_r in Hlo. apply Hlo; lia.
Qed.



(** Integer bounds below [2^53] survive the rounding. *)
Lemma round64_between (x : Q) (a b : Z) :
  (0 <= x)%Q → (x < inject_Z (2 ^ 53))%Q →
  (inject_Z a <= x)%Q → (x <= inject_Z b)%Q →
  (inject_Z a <= round64 x)%Q ∧ (round64 x <= inject_Z b)%Q.
Proof.
  intros Hx Hlt Ha Hb.
  pose proof (round64_lower x 0 a ltac:(lia) Hx) as Hlo.
  pose proof (round64_upper x 0 b ltac:(lia) Hx) as Hup.
  change (inject_Z (2 ^ 0)) with 1%Q in *. rewrite !Qmult_1_r in *. auto.
Qed.

Lemma float_of_int_exact (n : Z) :
  0 ≤ n < 2 ^ 53 → (float_of_int n == inject_Z n)%Q.
Proof.
  intros Hn. unfold float_of_int.
  assert (H0 : (0 <= inject_Z n)%Q)
    by (change 0%Q with (inject_Z 0); rewrite <- Zle_Qle; lia).
  assert (H53 : (inject_Z n < inject_Z (2 ^ 53))%Q) by (rewrite <- Zlt_Qlt; lia).
  destruct (round64_between (inject_Z n) n n H0 H53 (Qle_refl _) (Qle_refl _))
    as [Hlo Hup].
  by apply Qle_antisym.
Qed.

Lemma float_of_int_100 : (float_of_int 100 == inject_Z 100)%Q.
Proof. apply float_of_int_exact. lia. Qed.

Lemma py_int_floor (q : Q) : (0 <= q)%Q → py_int q = Qfloor q.
Proof.
  destruct q as [n d]. unfold Qle, py_int, Qfloor. simpl. intros Hq.
  apply Z.quot_div_nonneg; lia.
Qed.


(** The product and the quotient of [num_sucias], for a percentage between
    0 and 100 on a grid of [t] cells, [100 * t < 2^52]. *)
Lemma product_range (t : Z) (p : Q) :
  1 ≤ t → 100 * t < 2 ^ 52 → (0 <= p)%Q → (p <= inject_Z 100)%Q →
  (0 <= fmul (float_of_int t) p)%Q ∧ (fmul (float_of_int t) p <= inject_Z (100 * t))%Q.
Proof.
  intros Ht Hsmall Hp0 Hp100. unfold fmul.
  pose proof (float_of_int_exact t ltac:(lia)) as Ha.
  assert (Ht0 : (1 <= inject_Z t)%Q) by (change 1%Q with (inject_Z 1); by rewrite <- Zle_Qle).
  assert (H53 : (inject_Z (100 * t) < inject_Z (2 ^ 53))%Q) by (rewrite <- Zlt_Qlt; lia).
  rewrite inject_Z_mult in *. change (inject_Z 100) with 100%Q in *.
  apply (round64_between _ 0 (100 * t)); rewrite ?inject_Z_mult, ?Ha;
    change (inject_Z 100) with 100%Q; change (inject_Z 0) with 0%Q; nra.
Qed.

(** The number of cells to seed is between 0 and the number of cells. *)
Lemma num_sucias_range (M N : Z) (p : Q) :
  1 ≤ M * N → 100 * (M * N) < 2 ^ 52 → (0 <= p)%Q → (p <= inject_Z 100)%Q →
  0 ≤ num_sucias M N p ≤ M * N.
Proof.
  intros Ht Hsmall Hp0 Hp100. unfold num_sucias. set (t := M * N) in *.
  destruct (product_range t p Ht Hsmall Hp0 Hp100) as [Hx0 Hx1].
  set (x := fmul (float_of_int t) p) in *.
  pose proof float_of_int_100 as Hc. set (c := float_of_int 100) in *.
  assert (H53 : (inject_Z t < inject_Z (2 ^ 53))%Q) by (rewrite <- Zlt_Qlt; lia).
  rewrite inject_Z_mult in Hx1. change (inject_Z 100) with 100%Q in *.
  assert (Hy : (0 <= x / c)%Q ∧ (x / c <= inject_Z t)%Q).
  { rewrite Hc. split.
    - apply Qle_shift_div_l; [done | nra].
    - apply Qle_shift_div_r; [done | nra]. }
  destruct Hy as [Hy0 Hy1].
  destruct (round64_between (x / c) 0 t Hy0) as [Hz0 Hz1]; [nra | done | done |].
  fold (fdiv x c) in Hz0, Hz1. change (inject_Z 0) with 0%Q in Hz0.
  rewrite (py_int_floor _ Hz0).
  apply Qfloor_resp_le in Hz0, Hz1. rewrite Qfloor_Z in Hz1.
  change (Qfloor 0) with 0 in Hz0. lia.
Qed.


(** For a whole percentage the number of cells to seed is the floor of
    [M * N * k / 100]. *)
Lemma num_sucias_whole (M N k : Z) :
  1 ≤ M * N → 100 * (M * N) < 2 ^ 52 → 0 ≤ k ≤ 100 →
  num_sucias M N (inject_Z k) = M * N * k / 100.
Proof.
  intros Ht Hsmall Hk. unfold num_sucias. set (t := M * N) in *.
  pose proof (float_of_int_exact t ltac:(lia)) as Ha.
  assert (Hx : (fmul (float_of_int t) (inject_Z k) == inject_Z (t * k))%Q).
  { assert (Hk0 : (0 <= inject_Z k)%Q)
      by (change 0%Q with (inject_Z 0); rewrite <- Zle_Qle; lia).
    assert (Htk : (float_of_int t * inject_Z k == inject_Z (t * k))%Q)
      by (by rewrite Ha, inject_Z_mult).
    assert (Htk0 : (0 <= inject_Z (t * k))%Q)
      by (change 0%Q with (inject_Z 0); rewrite <- Zle_Qle; nia).
    destruct (round64_between (float_of_int t * inject_Z k) (t * k) (t * k))
      as [Hlo Hup]; rewrite ?Htk; try apply Qle_refl; try done.
    - rewrite <- Zlt_Qlt. nia.
    - by apply Qle_antisym. }
  set (x := fmul (float_of_int t) (inject_Z k)) in *.
  pose proof float_of_int_100 as Hc. set (c := float_of_int 100) in *.
  pose proof (Z.div_mod (t * k) 100 ltac:(lia)) as Hdm.
  pose proof (Z.mod_pos_bound (t * k) 100 ltac:(lia)) as Hm.
  set (F := t * k / 100) in *. set (r := (t * k) mod 100) in *.
  assert (Hy : (x / c == inject_Z F + inject_Z r * (1 # 100))%Q).
  { rewrite Hx, Hc, Hdm, inject_Z_plus, inject_Z_mult.
    change (inject_Z 100) with 100%Q. field. }
  assert (Hr0 : (0 <= inject_Z r)%Q)
    by (change 0%Q with (inject_Z 0); rewrite <- Zle_Qle; lia).
  assert (Hr1 : (inject_Z r <= 99)%Q)
    by (change 99%Q with (inject_Z 99); rewrite <- Zle_Qle; lia).
  assert (HF0 : (0 <= inject_Z F)%Q)
    by (change 0%Q with (inject_Z 0); rewrite <- Zle_Qle; nia).
  assert (HF1 : (inject_Z F * 100 < inject_Z (2 ^ 52))%Q).
  { change 100%Q with (inject_Z 100). rewrite <- inject_Z_mult, <- Zlt_Qlt. nia. }
  change (inject_Z (2 ^ 52)) with 4503599627370496%Q in HF1.
  assert (Hy0 : (0 <= x / c)%Q) by (rewrite Hy; nra).
  pose proof (round64_lower (x / c) 0 F ltac:(lia) Hy0) as Hlo.
  pose proof (round64_upper (x / c) 7 (128 * F + 127) ltac:(lia) Hy0) as Hup.
  fold (fdiv x c) in Hlo, Hup. set (z := fdiv x c) in *.
  change (inject_Z (2 ^ 0)) with 1%Q in Hlo. change (inject_Z (2 ^ 7)) with 128%Q in Hup.
  change (inject_Z (2 ^ 53)) with 9007199254740992%Q in Hlo, Hup.
  rewrite inject_Z_plus, inject_Z_mult in Hup.
  change (inject_Z 128) with 128%Q in Hup. change (inject_Z 127) with 127%Q in Hup.
  rewrite Hy in Hlo, Hup.
  assert (Hz0 : (inject_Z F <= z * 1)%Q) by (apply Hlo; nra).
  assert (Hz1 : (z * 128 <= 128 * inject_Z F + 127)%Q) by (apply Hup; nra).
  rewrite py_int_floor by nra.
  apply Z.le_antisymm.
  - apply Z.lt_succ_r. unfold Z.succ. rewrite Zlt_Qlt, inject_Z_plus.
    change (inject_Z 1) with 1%Q. pose proof (Qfloor_le z). nra.
  - rewrite <- (Qfloor_Z F). apply Qfloor_resp_le. nra.
Qed.

(** ** The cells of a grid *)

Lemma elem_of_all_cells (M N : Z) (c : Coord) :
  c ∈ all_cells M N ↔ in_bounds {| width := M; height := N |} c.
Proof.
  destruct c as [x y]. unfold all_cells, in_bounds.
  rewrite list_elem_of_In.
  etrans; [apply (in_prod_iff (seqZ 0 M) (seqZ 0 N) x y) |].
  rewrite <- !list_elem_of_In, !elem_of_seqZ. simpl. lia.
Qed.

Lemma NoDup_list_prod {A B : Type} (l : list A) (k : list B) :
  NoDup l → NoDup k → NoDup (list_prod l k).
Proof.
  intros Hl Hk. induction Hl as [| a l Ha Hl IH]; [constructor |].
  cbn [list_prod]. apply NoDup_app. split_and!.
  - apply (NoDup_fmap_2 (pair a)). exact Hk.
  - intros [a' b] [b' [[= <- <-] _]]%list_elem_of_fmap Hin.
    apply list_elem_of_In, in_prod_iff in Hin as [Hin _].
    by apply list_elem_of_In in Hin.
  - exact IH.
Qed.

Lemma size_all_cells (M N : Z) :
  0 ≤ M → 0 ≤ N →
  Z.of_nat (size (list_to_set (all_cells M N) : gset Coord)) = M * N.
Proof.
  intros HM HN. rewrite size_list_to_set
    by (apply NoDup_list_prod; apply NoDup_seqZ).
  unfold all_cells. rewrite length_prod, !length_seqZ. lia.
Qed.

(** A set of cells of the grid has at most [M * N] elements. *)
Lemma size_in_bounds (M N : Z) (dirty : gset Coord) :
  0 ≤ M → 0 ≤ N →
  (∀ c, c ∈ dirty → in_bounds {| width := M; height := N |} c) →
  Z.of_nat (size dirty) ≤ M * N.
Proof.
  intros HM HN Hb. rewrite <- (size_all_cells M N HM HN).
  apply inj_le, subseteq_size. intros c Hc.
  apply elem_of_list_to_set, elem_of_all_cells, Hb, Hc.
Qed.

(** A set with fewer elements misses a cell of the grid. *)
Lemma missing_cell (M N : Z) (dirty : gset Coord) :
  0 ≤ M → 0 ≤ N →
  Z.of_nat (size dirty) < M * N →
  ∃ c, in_bounds {| width := M; height := N |} c ∧ c ∉ dirty.
Proof.
  intros HM HN Hlt.
  destruct (set_choose_or_empty (list_to_set (all_cells M N) ∖ dirty : gset Coord))
    as [[c Hc] | Hempty].
  - apply elem_of_difference in Hc as [Hc Hout]. exists c. split; [| exact Hout].
    apply elem_of_list_to_set in Hc. by apply elem_of_all_cells.
  - assert (Hsub : (list_to_set (all_cells M N) : gset Coord) ⊆ dirty).
    { intros c Hc. destruct (decide (c ∈ dirty)) as [| Hout]; [done |].
      exfalso. apply (not_elem_of_empty (C := gset Coord) c).
      rewrite <- Hempty. by apply elem_of_difference. }
    apply subseteq_size, inj_le in Hsub. rewrite size_all_cells in Hsub by done. lia.
Qed.

(** ** Termination of the sampling loop *)

Section Sampling.
Context {G : Type} `{Random G}.
Implicit Types (g : G) (dirty : gset Coord).

Lemma after_S (M N : Z) (i : nat) g :
  after M N (S i) g = after M N i (draw_cell M N g).2.
Proof. unfold after. by rewrite Nat.iter_succ_r. Qed.

Lemma fair_next (M N : Z) g : fair M N g → fair M N (draw_cell M N g).2.
Proof.
  intros Hfair i c Hc. destruct (Hfair (S i) c Hc) as [j Hj].
  exists j. by rewrite <- after_S.
Qed.

Lemma draw_cell_in_bounds (M N : Z) g :
  0 < M → 0 < N → in_bounds {| width := M; height := N |} (draw_cell M N g).1.
Proof.
  intros HM HN. unfold draw_cell.
  pose proof (randbelow_range g M HM) as Hx. destruct (randbelow g M) as [x g1].
  pose proof (randbelow_range g1 N HN) as Hy. destruct (randbelow g1 N) as [y g2].
  by split.
Qed.

(** One iteration of the loop. *)
Lemma sample_dirty_step (fuel : nat) g (M N target : Z) dirty :
  0 < M → 0 < N → Z.of_nat (size dirty) < target →
  sample_dirty (S fuel) g M N target dirty =
    sample_dirty fuel (draw_cell M N g).2 M N target ({[(draw_cell M N g).1]} ∪ dirty).
Proof.
  intros HM HN Hlt. cbn [sample_dirty]. rewrite (proj2 (Z.ltb_lt _ _) Hlt).
  unfold randrange, draw_cell.
  rewrite (proj2 (Z.ltb_lt _ _) HM). destruct (randbelow g M) as [x g1]. cbn.
  rewrite (proj2 (Z.ltb_lt _ _) HN). destruct (randbelow g1 N) as [y g2]. cbn.
  reflexivity.
Qed.

(** When a cell that is not in the set is still to come, the loop gets
    to add a new cell to the set. *)
Lemma sample_dirty_progress (M N target : Z) (j : nat) g dirty :
  0 < M → 0 < N → Z.of_nat (size dirty) < target →
  (draw_cell M N (after M N j g)).1 ∉ dirty →
  ∃ (i : nat) (c : Coord),
    (c ∉ dirty) ∧ in_bounds {| width := M; height := N |} c ∧
    (∀ fuel : nat,
       sample_dirty (S i + fuel) g M N target dirty =
         sample_dirty fuel (after M N (S i) g) M N target ({[c]} ∪ dirty)).
Proof.
  intros HM HN Hlt. revert g. induction j as [| j IH]; intros g Hnew.
  - exists O, (draw_cell M N g).1. split; [exact Hnew |].
    split; [by apply draw_cell_in_bounds |].
    intros fuel. by apply sample_dirty_step.
  - destruct (decide ((draw_cell M N g).1 ∈ dirty)) as [Hin | Hout].
    + rewrite after_S in Hnew. destruct (IH _ Hnew) as (i & c & Hc & Hb & Hrun).
      exists (S i), c. split; [exact Hc |]. split; [exact Hb |].
      intros fuel. rewrite (after_S M N (S i)), <- Hrun.
      change (S (S i) + fuel)%nat with (S (S i + fuel)).
      rewrite sample_dirty_step by done. f_equal.
      apply subseteq_union_1_L. by apply singleton_subseteq_l.
    + exists O, (draw_cell M N g).1. split; [exact Hout |].
      split; [by apply draw_cell_in_bounds |].
      intros fuel. by apply sample_dirty_step.
Qed.

Lemma fair_after (M N : Z) (i : nat) g : fair M N g → fair M N (after M N i g).
Proof.
  revert g. induction i as [| i IH]; intros g Hfair; [done |].
  rewrite after_S. by apply IH, fair_next.
Qed.

(** On a fair generator the sampling loop ends, if it is asked for no
    more cells than the grid has. *)
Lemma sample_dirty_terminates (M N target : Z) (d : nat) g dirty :
  0 < M → 0 < N → target ≤ M * N →
  fair M N g →
  (∀ c, c ∈ dirty → in_bounds {| width := M; height := N |} c) →
  target ≤ Z.of_nat (size dirty) + Z.of_nat d →
  ∃ (fuel : nat) g' dirty',
    sample_dirty fuel g M N target dirty = Ok (g', dirty').
Proof.
  intros HM HN Htarget. revert g dirty.
  induction d as [| d IH]; intros g dirty Hfair Hb Hd.
  - exists O, g, dirty. apply sample_dirty_done. lia.
  - destruct (Z.lt_ge_cases (Z.of_nat (size dirty)) target) as [Hlt | Hge];
      [| exists O, g, dirty; by apply sample_dirty_done].
    destruct (missing_cell M N dirty ltac:(lia) ltac:(lia) ltac:(lia))
      as (c0 & Hc0 & Hout).
    destruct (Hfair O c0 Hc0) as [j Hj]. cbn [Nat.add] in Hj.
    destruct (sample_dirty_progress M N target j g dirty HM HN Hlt)
      as (i & c & Hc & Hcb & Hrun); [by rewrite Hj |].
    destruct (IH (after M N (S i) g) ({[c]} ∪ dirty)) as (fuel & g' & dirty' & Hok).
    + by apply fair_after.
    + intros c' [->%elem_of_singleton | Hc']%elem_of_union; [done | by apply Hb].
    + rewrite size_union by (by apply disjoint_singleton_l).
      rewrite size_singleton. lia.
    + exists (S i + fuel)%nat, g', dirty'. by rewrite Hrun.
Qed.

End Sampling.

Section Construction.
Context {G : Type} `{Random G}.
Implicit Types (g : G) (m : VacuumModel G).

(** C3, amended.  For [1 ≤ M], [1 ≤ N], a grid of fewer than [2^52 / 100]
    cells and a percentage [p] between 0 and 100, the number of cells to
    seed is [int(M * N * p / 100)] as the floating-point arithmetic
    evaluates it: a number between 0 and the number of cells, which is
    [floor(M * N * p / 100)] when [p] is a whole number.  Whenever
    construction returns, the registry holds exactly that many coordinates
    (a set: they are distinct), all within the grid.  When the number is 0
    construction returns at once with an empty registry.  And construction
    does return, on every generator that is fair for the grid: the
    rejection sampling ends. *)
Theorem seeding_exact (M N : Z) (p : Q) :
  1 ≤ M → 1 ≤ N → 100 * (M * N) < 2 ^ 52 →
  (0 <= p)%Q → (p <= inject_Z 100)%Q →
  let target := num_sucias M N p in
  0 ≤ target ≤ M * N ∧
  (∀ k : Z, p = inject_Z k →
     target = Qfloor (inject_Z (M * N) * p / inject_Z 100)) ∧
  (∀ (fuel : nat) g (k T : Z) m,
     init fuel g M N k p T = Ok m →
     Z.of_nat (size (dirty_cells m)) = target ∧
     ∀ c, c ∈ dirty_cells m → 0 ≤ c.1 < M ∧ 0 ≤ c.2 < N) ∧
  (target = 0 →
   ∀ (fuel : nat) g (k T : Z),
     ∃ m, init fuel g M N k p T = Ok m ∧ dirty_cells m = ∅) ∧
  (∀ g (k T : Z),
     fair M N g →
     ∃ (fuel : nat) m,
       init fuel g M N k p T = Ok m ∧
       Z.of_nat (size (dirty_cells m)) = target).
Proof.
  intros HM HN Hsmall Hp0 Hp100 target.
  pose proof (num_sucias_range M N p ltac:(nia) Hsmall Hp0 Hp100) as Hrange.
  fold target in Hrange.
  assert (Hexact : ∀ (fuel : nat) g (k T : Z) m,
             init fuel g M N k p T = Ok m →
             Z.of_nat (size (dirty_cells m)) = target ∧
             ∀ c, c ∈ dirty_cells m → 0 ≤ c.1 < M ∧ 0 ≤ c.2 < N).
  { intros fuel g k T m Hinit.
    destruct (init_spec _ _ _ _ _ _ _ _ HM HN Hinit)
      as (Hgrid & _ & _ & _ & _ & _ & Hb & Hsize).
    rewrite Hgrid in Hb. split; [| exact Hb]. rewrite Hsize. fold target. lia. }
  split_and!; [lia | lia | | exact Hexact | |].
  - intros k ->. unfold target.
    change 0%Q with (inject_Z 0) in Hp0. rewrite <- Zle_Qle in Hp0, Hp100.
    rewrite num_sucias_whole by (done || nia).
    unfold Qfloor, Qdiv, Qmult, Qinv, inject_Z. cbn [Qnum Qden].
    by rewrite Z.mul_1_r.
  - intros Hzero fuel g k T. rewrite init_unfold by done.
    rewrite sample_dirty_done by (rewrite size_empty; fold target; lia).
    cbn. eexists. split; reflexivity.
  - intros g k T Hfair.
    destruct (sample_dirty_terminates M N target (Z.to_nat target) g ∅)
      as (fuel & g' & dirty & Hok);
      [lia | lia | lia | exact Hfair | by intros c ?%not_elem_of_empty | lia |].
    assert (Hinit : ∃ m, init fuel g M N k p T = Ok m).
    { rewrite init_unfold by done. fold target. rewrite Hok. cbn. by eexists. }
    destruct Hinit as [m Hinit]. exists fuel, m. split; [exact Hinit |].
    by destruct (Hexact _ _ _ _ _ Hinit).
Qed.

End Construction.

(** The generator [lcg] seeded with 1 is fair for a 2 x 2 grid: it comes
    back to its seed after eight iterations of the sampling loop, in which
    it draws the four cells. *)
Lemma lcg_cycle (q : nat) : after 2 2 (q * 8) (1 : Z) = 1.
Proof.
  induction q as [| q IH]; [reflexivity |].
  change (S q * 8)%nat with (8 + q * 8)%nat. unfold after in *.
  rewrite Nat.iter_add, IH. vm_compute. reflexivity.
Qed.

Lemma lcg_fair : fair 2 2 (1 : Z).
Proof.
  intros i [x y] [Hx Hy]. simpl in Hx, Hy.
  assert (Hcell : ∃ jc : nat, (draw_cell 2 2 (after 2 2 jc (1 : Z))).1 = (x, y)).
  { assert (Hxy : (x = 0 ∨ x = 1) ∧ (y = 0 ∨ y = 1)) by lia.
    destruct Hxy as [[-> | ->] [-> | ->]];
      [exists 0%nat | exists 1%nat | exists 3%nat | exists 2%nat];
      vm_compute; reflexivity. }
  destruct Hcell as [jc Hjc]. exists (7 * i + jc)%nat.
  replace (i + (7 * i + jc))%nat with (jc + i * 8)%nat by lia.
  pose proof (lcg_cycle i) as Hcycle.
  unfold after in *. by rewrite Nat.iter_add, Hcycle.
Qed.

(** Half of a 2 x 2 grid: two cells, seeded by [lcg] from the seed 1. *)
Lemma seeding_exact_witness :
  num_sucias 2 2 (50 # 1) = 2 ∧
  ∃ (fuel : nat) m,
    init fuel (1 : Z) 2 2 3 (50 # 1) 4 = Ok m ∧
    Z.of_nat (size (dirty_cells m)) = 2.
Proof.
  destruct (seeding_exact 2 2 (50 # 1)) as (_ & _ & _ & _ & Hends);
    [lia | lia | lia | done | done |].
  split; [vm_compute; reflexivity |]. apply Hends. exact lcg_fair.
Defined.

(** C3 as stated fails: for the float 14.285714285714285, the one just
    below 100 / 7, on a grid of 7 x 1 cells, [floor(M * N * p / 100)] is 0.
    The product [7 * p] is halfway between two floats and is rounded to 100,
    the quotient is 1, and construction seeds one cell. *)
Lemma seeding_exact_counterexample :
  let p := (2010535547933257 # 140737488355328)%Q in
  (0 <= p)%Q ∧ (p <= inject_Z 100)%Q ∧
  Qfloor (inject_Z (7 * 1) * p / inject_Z 100) = 0 ∧
  (fmul (float_of_int (7 * 1)) p == inject_Z 100)%Q ∧
  num_sucias 7 1 p = 1 ∧
  ∃ m, init 5 (1 : Z) 7 1 0 p 3 = Ok m ∧ size (dirty_cells m) = 1%nat.
Proof.
  cbv zeta. split_and!; try (vm_compute; reflexivity); try (by vm_compute).
  eexists. split; vm_compute; reflexivity.
Qed.



(** ** More on a tick *)

Section TickFacts.
Context {G : Type} `{Random G}.
Implicit Types (g : G) (m : VacuumModel G) (a : VacuumAgent) (dirty : gset Coord).

(** A tick, with the loop it runs. *)
Lemma step_loop g m :
  ∃ g0 order g' m',
    step g m = Ok (g', m') ∧
    order ≡ₚ agents_list m ∧
    agents_loop (grid m) g0 (dirty_cells m) (total_moves m) order
      = Ok (g', dirty_cells m', total_moves m', agents_list m') ∧
    grid m' = grid m ∧ tiempo_max m' = tiempo_max m ∧
    num_agents m' = num_agents m ∧ random_ m' = random_ m ∧
    step_count m' = step_count m + 1.
Proof.
  unfold step.
  pose proof (shuffle_Permutation g (agents_list m)) as Hperm.
  destruct (shuffle g (agents_list m)) as [g0 order]. simpl in Hperm.
  destruct (agents_loop_spec (grid m) order g0 (dirty_cells m) (total_moves m))
    as (g1 & dirty & total & agents & Hloop & _).
  rewrite Hloop. cbn. eexists g0, order, _, _. split; [reflexivity |].
  cbn. split; [exact Hperm |]. split; [exact Hloop |]. split_and!; reflexivity.
Qed.

(** The loop removes the cells the agents stand on, and nothing else. *)
Lemma agents_loop_dirty grid (todo : list VacuumAgent) g dirty (total : Z)
    g' dirty' total' agents' :
  agents_loop grid g dirty total todo = Ok (g', dirty', total', agents') →
  dirty' = dirty ∖ list_to_set (pos <$> todo).
Proof.
  revert g dirty total g' dirty' total' agents'.
  induction todo as [| a rest IH]; intros g dirty total g' dirty' total' agents'.
  - cbn. intros [= <- <- <- <-]. cbn. by rewrite difference_empty_L.
  - cbn [agents_loop].
    destruct (agent_turn_outcome grid g dirty total a)
      as (g1 & dirty1 & a1 & Hout & ->). cbn.
    destruct (agents_loop grid g1 dirty1 (total + moves a1) rest)
      as [[[[g2 dirty2] total2] rest'] | |] eqn:Hloop; cbn; [| done | done].
    intros [= <- <- <- <-]. apply IH in Hloop as ->.
    assert (Hd1 : dirty1 = dirty ∖ {[pos a]}).
    { destruct Hout as [| Hout _ | p Hout _ _]; [done | |];
        symmetry; apply difference_disjoint_L; by apply disjoint_singleton_r. }
    rewrite Hd1. by rewrite difference_difference_l_L.
Qed.

(** The neighbours an agent may move to. *)
Lemma elem_of_valid_neighbors grid (p : Coord) (d : Z * Z) :
  d ∈ offsets → d ≠ (0, 0) → in_bounds grid (p.1 + d.1, p.2 + d.2) →
  In (p.1 + d.1, p.2 + d.2)
     (List.filter (λ q, negb (out_of_bounds grid q)) (get_neighborhood grid p)).
Proof.
  intros Hd Hne Hb. destruct p as [x y]. cbn [fst snd] in *.
  assert (Hout : out_of_bounds grid (x + d.1, y + d.2) = false)
    by (by apply out_of_bounds_false).
  apply filter_In. split; [| by rewrite Hout].
  unfold get_neighborhood. apply filter_In. split.
  - apply in_map_iff. exists d. split; [done | by apply list_elem_of_In].
  - rewrite Hout. cbn. apply negb_true_iff, bool_decide_eq_false.
    intros [= Hx Hy]. apply Hne. destruct d as [dx dy]. cbn [fst snd] in *. f_equal; lia.
Qed.

(** On a grid with more than one cell every cell has a neighbour. *)
Lemma valid_neighbors_nonempty grid (p : Coord) :
  in_bounds grid p → 1 < width grid * height grid →
  List.filter (λ q, negb (out_of_bounds grid q)) (get_neighborhood grid p) ≠ [].
Proof.
  intros [Hx Hy] Hbig.
  assert (Hd : ∃ d, d ∈ offsets ∧ d ≠ (0, 0) ∧ in_bounds grid (p.1 + d.1, p.2 + d.2)).
  { destruct (decide (p.1 + 1 < width grid)); [exists (1, 0) |
      destruct (decide (0 ≤ p.1 - 1)); [exists (-1, 0) |
        destruct (decide (p.2 + 1 < height grid)); [exists (0, 1) | exists (0, -1)]]];
      (split; [unfold offsets; cbn; rewrite !elem_of_cons; tauto |]);
      (split; [done |]); unfold in_bounds; simpl; nia. }
  destruct Hd as (d & Hd & Hne & Hb).
  pose proof (elem_of_valid_neighbors grid p d Hd Hne Hb) as Hin.
  intros Hnil. rewrite Hnil in Hin. destruct Hin.
Qed.

(** On a grid of one cell there is none. *)
Lemma valid_neighbors_single grid (p : Coord) :
  width grid = 1 → height grid = 1 → in_bounds grid p →
  List.filter (λ q, negb (out_of_bounds grid q)) (get_neighborhood grid p) = [].
Proof.
  intros Hw Hh [Hx Hy].
  destruct (List.filter _ (get_neighborhood grid p)) as [| q l] eqn:Hl; [done |].
  assert (Hq : In q (q :: l)) by (by left). rewrite <- Hl in Hq.
  apply filter_In in Hq as [Hq _].
  apply elem_of_get_neighborhood in Hq as [[Hqx Hqy] (dx & dy & -> & ? & ? & Hne)].
  simpl in *. exfalso. apply Hne. f_equal; lia.
Qed.

(** In the loop every agent cleans a cell or makes a move. *)
Lemma agents_loop_count grid (todo : list VacuumAgent) g dirty (total : Z) :
  1 < width grid * height grid →
  Forall (λ a, in_bounds grid (pos a) ∧ moves a = 0) todo →
  ∃ g' dirty' total' agents',
    agents_loop grid g dirty total todo = Ok (g', dirty', total', agents') ∧
    (total' - total) + (Z.of_nat (size dirty) - Z.of_nat (size dirty'))
      = Z.of_nat (length todo).
Proof.
  intros Hbig. revert g dirty total.
  induction todo as [| a rest IH]; intros g dirty total Hall.
  - eexists _, _, _, _. split; [reflexivity |]. cbn. lia.
  - apply Forall_cons in Hall as [[Hb Hzero] Hrest]. cbn [agents_loop].
    destruct (agent_turn_outcome grid g dirty total a)
      as (g1 & dirty1 & a1 & Hout & ->). cbn.
    destruct (IH g1 dirty1 (total + moves a1) Hrest)
      as (g2 & dirty2 & total2 & rest' & -> & Hcount).
    cbn. eexists _, _, _, _. split; [reflexivity |]. cbn [length].
    destruct Hout as [Hin | _ Hnil | p _ _ _].
    + rewrite size_difference in Hcount by (by apply singleton_subseteq_l).
      rewrite size_singleton in Hcount.
      assert (Hs : (size ({[pos a]} : gset Coord) ≤ size dirty)%nat)
        by (by apply subseteq_size, singleton_subseteq_l).
      rewrite size_singleton in Hs. lia.
    + by apply valid_neighbors_nonempty in Hnil.
    + cbn [moves] in Hcount. lia.
Qed.

Lemma turn_rel_ids grid (l l' : list VacuumAgent) :
  Forall2 (turn_rel grid) l l' → unique_id <$> l' = unique_id <$> l.
Proof.
  induction 1 as [| a a' l l' (Hid & _) _ IH]; [done |].
  cbn. by rewrite Hid, IH.
Qed.
End TickFacts.

(** ** More on the reachable states *)

Section RunFacts.
Context {G : Type} `{Random G}.
Implicit Types (g : G) (m : VacuumModel G) (a : VacuumAgent) (dirty : gset Coord).

Lemma init_num_agents (fuel : nat) g (M N k : Z) (p : Q) (T : Z) m :
  1 ≤ M → 1 ≤ N → init fuel g M N k p T = Ok m → num_agents m = k.
Proof.
  intros HM HN. rewrite init_unfold by done.
  destruct (sample_dirty _ _ _ _ _ _) as [[g' dirty] | |]; [| done | done].
  cbn. by intros [= <-].
Qed.

Lemma init_run_inv (fuel : nat) g (M N k : Z) (p : Q) (T : Z) m :
  1 ≤ M → 1 ≤ N → init fuel g M N k p T = Ok m → run_inv m.
Proof.
  intros HM HN Hinit.
  pose proof (init_num_agents _ _ _ _ _ _ _ _ HM HN Hinit) as Hk.
  destruct (init_spec _ _ _ _ _ _ _ _ HM HN Hinit)
    as (_ & _ & Hagents & Hc & Htot & _).
  split; rewrite ?Hagents, ?Hc, ?Htot, ?Hk.
  - rewrite <- list_fmap_compose. by rewrite list_fmap_id.
  - done.
  - lia.
  - apply Forall_fmap, Forall_forall. intros i _. by cbn.
Qed.

Lemma step_run_inv g m g' m' :
  model_inv m → run_inv m → step g m = Ok (g', m') → run_inv m'.
Proof.
  intros [_ Ha] [Hids Hc Htot Hreach] Hstep.
  destruct (step_loop g m)
    as (g0 & order & g1 & m1 & Heq & Hperm & _ & _ & _ & Hk & _ & Hc').
  destruct (step_spec g m)
    as (g2 & m2 & order2 & Heq2 & _ & _ & _ & _ & _ & Hperm2 & Hrel & Hbound).
  rewrite Hstep in Heq, Heq2. injection Heq as <- <-. injection Heq2 as <- <-.
  assert (Hlen : length (agents_list m') = length (agents_list m))
    by (by rewrite <- (Forall2_length _ _ _ Hrel), Hperm2).
  split.
  - rewrite (turn_rel_ids _ _ _ Hrel), Hperm2, Hk. exact Hids.
  - lia.
  - rewrite Hlen, Hc'.
    assert (Hzero : Forall (λ a, moves a = 0) (agents_list m))
      by (eapply Forall_impl; [exact Ha | by intros ? [_ ?]]).
    specialize (Hbound Hzero). nia.
  - rewrite Hc'. rewrite <- Hperm2 in Hreach. clear -Hreach Hrel.
    induction Hrel as [| a a' l l' Hr _ IH]; [constructor |].
    apply Forall_cons in Hreach as [[Hx Hy] Hreach]. constructor; [| by apply IH].
    destruct Hr as (_ & _ & [-> | [(dx & dy & -> & ? & ? & _) _]]); simpl; lia.
Qed.

Lemma reachable_run_inv (M N : Z) m : reachable M N m → run_inv m.
Proof.
  induction 1 as [fuel g k p T m HM HN Hinit | g m g' m' Hreach IH Hstep].
  - exact (init_run_inv _ _ _ _ _ _ _ _ HM HN Hinit).
  - apply reachable_inv in Hreach as [_ Hinv]. by eapply step_run_inv.
Qed.

Lemma ticks_reachable (fuel : nat) g0 (M N k : Z) (p : Q) (T : Z) m0 (n : nat) g g' m :
  1 ≤ M → 1 ≤ N → init fuel g0 M N k p T = Ok m0 →
  ticks n g m0 = Ok (g', m) →
  reachable M N m ∧ step_count m = Z.of_nat n.
Proof.
  intros HM HN Hinit. revert g' m. induction n as [| n IH]; intros g' m.
  - cbn. intros [= <- <-]. split; [by eapply reachable_init |].
    by destruct (init_start _ _ _ _ _ _ _ _ Hinit) as (_ & ? & _).
  - cbn [ticks]. destruct (ticks n g m0) as [[g1 m1] | |]; [| done | done]. cbn.
    intros Hstep. destruct (IH _ _ eq_refl) as [Hreach Hc].
    split; [by eapply reachable_step |].
    destruct (step_running _ _ _ _ Hstep) as (_ & -> & _). lia.
Qed.
End RunFacts.

(** * Further properties of the engine *)

Section Population.
Context {G : Type} `{Random G}.
Implicit Types (g : G) (m : VacuumModel G) (a : VacuumAgent) (dirty : gset Coord).

(** X1. On a grid with a cell, a construction that returns has created the
    agents [0], [1], ... in this order, one for each number below
    [num_agents] and none when it is not positive, all on (0,0) with their
    counters at zero; the step counter and the total of moves are zero and
    the engine is Running. *)
Theorem construction_agents (fuel : nat) g (M N k : Z) (p : Q) (T : Z) m :
  1 ≤ M → 1 ≤ N →
  init fuel g M N k p T = Ok m →
  unique_id <$> agents_list m = seqZ 0 k ∧
  length (agents_list m) = Z.to_nat k ∧
  Forall (λ a, pos a = (0, 0) ∧ moves a = 0) (agents_list m) ∧
  num_agents m = k ∧ tiempo_max m = T ∧
  grid m = {| width := M; height := N |} ∧
  step_count m = 0 ∧ total_moves m = 0 ∧ running m = true.
Proof.
  intros HM HN Hinit.
  pose proof (init_num_agents _ _ _ _ _ _ _ _ HM HN Hinit) as Hk.
  destruct (init_spec _ _ _ _ _ _ _ _ HM HN Hinit)
    as (Hgrid & HT & Hagents & Hc & Htot & Hrun & _).
  rewrite Hagents. split_and!; try done.
  - rewrite <- list_fmap_compose. by rewrite list_fmap_id.
  - by rewrite length_fmap, length_seqZ.
  - apply Forall_fmap, Forall_forall. by intros i _.
Qed.

(** X2. The population is fixed: in every reachable state the identifiers
    of the agents are those of the construction, each once, whatever the
    order the shuffles left them in; and the dimensions of the grid are
    those of the construction. *)
Theorem population_fixed (M N : Z) m :
  reachable M N m →
  unique_id <$> agents_list m ≡ₚ seqZ 0 (num_agents m) ∧
  NoDup (unique_id <$> agents_list m) ∧
  length (agents_list m) = Z.to_nat (num_agents m) ∧
  grid m = {| width := M; height := N |}.
Proof.
  intros Hreach. destruct (reachable_run_inv M N m Hreach) as [Hids _ _ _].
  destruct (reachable_inv M N m Hreach) as [Hgrid _].
  split_and!; [exact Hids | | | exact Hgrid].
  - rewrite Hids. apply NoDup_seqZ.
  - by rewrite <- (length_fmap unique_id), Hids, length_seqZ.
Qed.

(** X3. What a tick does to the dirty cells does not depend on the random
    draws: it removes exactly the cells on which an agent stood when the
    tick began, so that no such cell is dirty after it, and no other cell is
    cleaned. *)
Theorem tick_cleans_occupied g m :
  ∃ g' m',
    step g m = Ok (g', m') ∧
    dirty_cells m' = dirty_cells m ∖ list_to_set (pos <$> agents_list m) ∧
    (∀ a, a ∈ agents_list m → pos a ∉ dirty_cells m') ∧
    (∀ c, c ∈ dirty_cells m → c ∉ dirty_cells m' →
          ∃ a, a ∈ agents_list m ∧ pos a = c).
Proof.
  destruct (step_loop g m) as (g0 & order & g' & m' & Hstep & Hperm & Hloop & _).
  apply agents_loop_dirty in Hloop. rewrite Hperm in Hloop.
  exists g', m'. split; [exact Hstep |]. split; [exact Hloop |]. rewrite Hloop. split.
  - intros a Ha [_ Hout]%elem_of_difference. apply Hout.
    apply elem_of_list_to_set, list_elem_of_fmap. eauto.
  - intros c Hc Hgone.
    destruct (decide (c ∈ (list_to_set (pos <$> agents_list m) : gset Coord)))
      as [Hin | Hout].
    + apply elem_of_list_to_set, list_elem_of_fmap in Hin as (a & -> & Ha). eauto.
    + exfalso. apply Hgone. by apply elem_of_difference.
Qed.

(** X4. On a grid with more than one cell every agent does something in a
    tick: it cleans a cell or it makes a move.  The moves the tick adds to
    the total and the cells it removes from the dirty set add up to the
    number of agents. *)
Theorem tick_clean_or_move (M N : Z) g m :
  reachable M N m → 1 < M * N →
  ∃ g' m',
    step g m = Ok (g', m') ∧
    (total_moves m' - total_moves m)
    + (Z.of_nat (size (dirty_cells m)) - Z.of_nat (size (dirty_cells m')))
    = Z.of_nat (length (agents_list m)).
Proof.
  intros [Hgrid [_ Ha]]%reachable_inv Hbig.
  destruct (step_loop g m) as (g0 & order & g' & m' & Hstep & Hperm & Hloop & _).
  destruct (agents_loop_count (grid m) order g0 (dirty_cells m) (total_moves m))
    as (g1 & dirty1 & total1 & agents1 & Hloop1 & Hcount).
  { by rewrite Hgrid. }
  { by rewrite Hperm. }
  rewrite Hloop in Hloop1. injection Hloop1 as <- <- <- <-.
  exists g', m'. split; [exact Hstep |]. by rewrite <- Hperm.
Qed.

(** X5. An agent on a clean cell of the grid fails to move exactly when the
    grid has a single cell: then its turn changes nothing and draws nothing
    from the generator; on any larger grid the turn takes it to another
    cell and counts one move. *)
Theorem stuck_iff_single_cell grid g dirty a :
  1 ≤ width grid → 1 ≤ height grid →
  in_bounds grid (pos a) → pos a ∉ dirty →
  (width grid * height grid = 1 → agent_step grid g dirty a = Ok (g, dirty, a)) ∧
  (1 < width grid * height grid →
   ∃ g' a', agent_step grid g dirty a = Ok (g', dirty, a') ∧
            pos a' ≠ pos a ∧ in_bounds grid (pos a') ∧
            moves a' = moves a + 1 ∧ unique_id a' = unique_id a).
Proof.
  intros Hw Hh Hb Hclean. split.
  - intros Hone. unfold agent_step. rewrite decide_False by done.
    rewrite valid_neighbors_single; [done | nia | nia | done].
  - intros Hbig.
    destruct (agent_step_outcome grid g dirty a) as (g' & dirty' & a' & Hstep & Hout).
    destruct Hout as [Hin | _ Hnil | p _ Hp Hpb]; [done | |].
    + by apply valid_neighbors_nonempty in Hnil.
    + eexists _, _. split; [exact Hstep |]. cbn. split_and!; try done.
      apply elem_of_get_neighborhood in Hp as [_ (dx & dy & -> & _ & _ & Hne)].
      intros Heq. apply Hne. destruct (pos a) as [x y]. cbn in Heq.
      injection Heq as Hx Hy. f_equal; lia.
Qed.

(** X6. The total of moves never decreases, and in every reachable state
    it is at most one move per agent and tick. *)
Theorem total_moves_bound (M N : Z) g m :
  reachable M N m →
  0 ≤ total_moves m ≤ step_count m * Z.of_nat (length (agents_list m)) ∧
  ∃ g' m', step g m = Ok (g', m') ∧
           total_moves m ≤ total_moves m' ≤
             total_moves m + Z.of_nat (length (agents_list m)).
Proof.
  intros Hreach. destruct (reachable_run_inv M N m Hreach) as [_ _ Htot _].
  split; [exact Htot |].
  destruct (reachable_inv M N m Hreach) as [_ [_ Ha]].
  destruct (step_spec g m) as (g' & m' & _ & Hstep & _ & _ & _ & _ & _ & _ & _ & Hb).
  exists g', m'. split; [exact Hstep |]. apply Hb.
  eapply Forall_impl; [exact Ha | by intros ? [_ ?]].
Qed.

(** X7. An agent is never further from its start than the number of ticks:
    in every reachable state both coordinates of every agent are between 0
    and the step counter. *)
Theorem agents_within_reach (M N : Z) m a :
  reachable M N m → a ∈ agents_list m →
  0 ≤ (pos a).1 ≤ step_count m ∧ 0 ≤ (pos a).2 ≤ step_count m.
Proof.
  intros Hreach Ha. destruct (reachable_run_inv M N m Hreach) as [_ _ _ Hr].
  destruct (reachable_inv M N m Hreach) as [_ [_ Hb]].
  rewrite Forall_forall in Hr, Hb.
  destruct (Hr a Ha) as [? ?]. destruct (Hb a Ha) as [[? ?] _]. lia.
Qed.

(** X8. A dirty cell cannot be cleaned before an agent has had the time to
    walk to it: a cell that the construction made dirty is still dirty
    after [n] ticks when one of its coordinates is at least [n]. *)
Theorem far_cells_stay_dirty (fuel : nat) g0 (M N k : Z) (p : Q) (T : Z) m0
    (n : nat) g g' m (c : Coord) :
  1 ≤ M → 1 ≤ N →
  init fuel g0 M N k p T = Ok m0 →
  ticks n g m0 = Ok (g', m) →
  c ∈ dirty_cells m0 →
  Z.of_nat n ≤ Z.max c.1 c.2 →
  c ∈ dirty_cells m.
Proof.
  intros HM HN Hinit. revert g' m. induction n as [| n IH]; intros g' m.
  - cbn. by intros [= <- <-].
  - cbn [ticks]. destruct (ticks n g m0) as [[g1 m1] | |] eqn:Hn; [| done | done]. cbn.
    intros Hstep Hc Hfar. specialize (IH _ _ eq_refl Hc ltac:(lia)).
    destruct (ticks_reachable _ _ _ _ _ _ _ _ _ _ _ _ HM HN Hinit Hn) as [Hreach Hcount].
    destruct (reachable_run_inv M N m1 Hreach) as [_ _ _ Hr].
    destruct (step_loop g1 m1) as (g2 & order & g3 & m3 & Heq & Hperm & Hloop & _).
    rewrite Hstep in Heq. injection Heq as <- <-.
    apply agents_loop_dirty in Hloop. rewrite Hperm in Hloop. rewrite Hloop.
    apply elem_of_difference. split; [exact IH |].
    intros (a & -> & Ha)%elem_of_list_to_set%list_elem_of_fmap.
    rewrite Forall_forall in Hr. destruct (Hr a Ha) as [? ?]. lia.
Qed.
End Population.

(** ** The driver and the report *)

Section Driver.
Context {G : Type} `{Random G}.
Implicit Types (g : G) (m : VacuumModel G) (a : VacuumAgent) (dirty : gset Coord).

Lemma ticks_front (n : nat) g m :
  ticks (S n) g m = '(g1, m1) ← step g m; ticks n g1 m1.
Proof.
  induction n as [| n IH].
  - cbn. destruct (step g m) as [[g1 m1] | |]; done.
  - change (ticks (S (S n)) g m) with ('(g', m') ← ticks (S n) g m; step g' m').
    rewrite IH. destruct (step g m) as [[g1 m1] | |]; done.
Qed.

Lemma ticks_reach (M N : Z) (n : nat) g m g' m' :
  reachable M N m → ticks n g m = Ok (g', m') → reachable M N m'.
Proof.
  revert g' m'. induction n as [| n IH]; intros g' m' Hreach.
  - cbn. by intros [= <- <-].
  - cbn [ticks]. destruct (ticks n g m) as [[g1 m1] | |]; [| done | done]. cbn.
    intros Hstep. eapply reachable_step; [by eapply IH | exact Hstep].
Qed.

(** The loop of the script ends within the budget, after one tick at
    least. *)
Lemma simulate_ends (fuel : nat) g m :
  running m = true →
  Z.max 1 (tiempo_max m - step_count m) ≤ Z.of_nat fuel →
  ∃ (n : nat) g' m',
    simulate fuel g m = Ok (g', m') ∧
    ticks n g m = Ok (g', m') ∧
    step_count m' = step_count m + Z.of_nat n ∧
    (1 ≤ n)%nat ∧
    step_count m' ≤ Z.max (step_count m + 1) (tiempo_max m) ∧
    running m' = false ∧
    (dirty_cells m' = ∅ ∨ tiempo_max m ≤ step_count m') ∧
    dirty_cells m' ⊆ dirty_cells m.
Proof.
  revert g m. induction fuel as [| fuel IH]; intros g m Hrun Hfuel; [lia |].
  cbn [simulate]. rewrite Hrun.
  destruct (step_spec g m)
    as (g1 & m1 & _ & Hstep & _ & HT & Hc & Hsub & _).
  destruct (step_running _ _ _ _ Hstep) as (_ & _ & Hfin).
  rewrite Hstep. cbn.
  destruct (running m1) eqn:Hrun1.
  - assert (Hnot : ¬ (running m = false ∨ dirty_cells m1 = ∅
                      ∨ tiempo_max m ≤ step_count m1))
      by (intros Hany; apply Hfin in Hany; done).
    destruct (IH g1 m1 Hrun1 ltac:(lia))
      as (n & g' & m' & Hsim & Hticks & Hcount & Hn & Hle & Hend & Hwhy & Hsub').
    exists (S n), g', m'. rewrite ticks_front, Hstep. cbn.
    split_and!; try done; try lia.
    + rewrite HT in Hwhy. exact Hwhy.
    + by etrans.
  - exists 1%nat, g1, m1. cbn. rewrite Hstep. cbn.
    destruct fuel; cbn [simulate]; rewrite Hrun1.
    all: split_and!; try done; try lia.
    all: apply proj1 in Hfin; destruct (Hfin eq_refl) as [? | [? | ?]];
      [congruence | by left | right; lia].
Qed.

(** X9. The loop of the script always ends.  Started on a Running engine
    with as much fuel as the budget leaves ticks, or one if none is left,
    it runs one tick at least and stops on a Finished engine, without
    going past the budget unless that first tick does; then the dirty set is
    empty or the step counter has reached the budget; and no cell is dirty
    that was not dirty before. *)
Theorem driver_terminates (fuel : nat) g m :
  running m = true →
  Z.max 1 (tiempo_max m - step_count m) ≤ Z.of_nat fuel →
  ∃ g' m',
    simulate fuel g m = Ok (g', m') ∧
    running m' = false ∧
    step_count m + 1 ≤ step_count m' ≤ Z.max (step_count m + 1) (tiempo_max m) ∧
    (dirty_cells m' = ∅ ∨ tiempo_max m ≤ step_count m') ∧
    dirty_cells m' ⊆ dirty_cells m.
Proof.
  intros Hrun Hfuel.
  destruct (simulate_ends fuel g m Hrun Hfuel)
    as (n & g' & m' & Hsim & _ & Hc & Hn & Hle & Hend & Hwhy & Hsub).
  exists g', m'. split_and!; try done; lia.
Qed.

(** A tick without agents. *)
Lemma step_no_agents g m :
  agents_list m = [] →
  step g m =
    Ok (g, {| grid := grid m;
              tiempo_max := tiempo_max m;
              num_agents := num_agents m;
              dirty_cells := dirty_cells m;
              agents_list := [];
              step_count := step_count m + 1;
              total_moves := total_moves m;
              running := if bool_decide (dirty_cells m = ∅)
                            || (step_count m + 1 >=? tiempo_max m)
                         then false else running m;
              random_ := random_ m |}).
Proof. intros Hnone. unfold step. rewrite Hnone. reflexivity. Qed.

(** X10. Without agents nothing is ever cleaned: a run on a dirty grid
    draws nothing from the generator, leaves the dirty set and the total of
    moves as they are, and stops when the step counter reaches the budget,
    after one tick if the budget was already reached. *)
Theorem no_agents_run (fuel : nat) g m :
  agents_list m = [] →
  running m = true →
  dirty_cells m ≠ ∅ →
  Z.max 1 (tiempo_max m - step_count m) ≤ Z.of_nat fuel →
  ∃ m',
    simulate fuel g m = Ok (g, m') ∧
    running m' = false ∧
    step_count m' = Z.max (step_count m + 1) (tiempo_max m) ∧
    dirty_cells m' = dirty_cells m ∧
    total_moves m' = total_moves m.
Proof.
  revert m. induction fuel as [| fuel IH]; intros m Hnone Hrun Hdirty Hfuel; [lia |].
  cbn [simulate]. rewrite Hrun, (step_no_agents g m Hnone). cbn.
  rewrite (bool_decide_eq_false_2 _ Hdirty). cbn [orb].
  destruct (Z.geb_spec (step_count m + 1) (tiempo_max m)) as [Hge | Hlt].
  - eexists. destruct fuel; cbn [simulate running]; (split; [reflexivity |]); cbn;
      split_and!; try done; lia.
  - rewrite Hrun.
    match goal with
    | |- context [simulate fuel g ?m1] =>
        destruct (IH m1 eq_refl eq_refl Hdirty) as (m' & -> & Hend & Hc & Hd & Ht);
          [cbn; lia |]
    end.
    cbn in *. exists m'. split_and!; try done. lia.
Qed.
End Driver.

Section Report.
Context {G : Type} `{Random G}.
Implicit Types (g : G) (m : VacuumModel G).

Lemma reachable_dims (M N : Z) m : reachable M N m → 1 ≤ M ∧ 1 ≤ N.
Proof. induction 1; auto. Qed.

(** The percentage of a part of a whole, as the report computes it. *)
Lemma percentage_range (l t : Z) :
  1 ≤ t → 0 ≤ l ≤ t →
  let pct := fmul (fdiv (inject_Z l) (inject_Z t)) (float_of_int 100) in
  (0 <= pct)%Q ∧ (pct <= 100)%Q ∧ (l = t → (pct == 100)%Q) ∧ (l = 0 → (pct == 0)%Q).
Proof.
  intros Ht Hl pct.
  assert (Ht0 : (0 < inject_Z t)%Q)
    by (change 0%Q with (inject_Z 0); rewrite <- Zlt_Qlt; lia).
  assert (Hl0 : (0 <= inject_Z l)%Q)
    by (change 0%Q with (inject_Z 0); rewrite <- Zle_Qle; lia).
  assert (Hlt : (inject_Z l <= inject_Z t)%Q) by (rewrite <- Zle_Qle; lia).
  pose (y := (inject_Z l / inject_Z t)%Q).
  pose (x := fdiv (inject_Z l) (inject_Z t)).
  pose (c := float_of_int 100).
  assert (Hy0 : (0 <= y)%Q) by (apply Qle_shift_div_l; [done | by rewrite Qmult_0_l]).
  assert (Hy1 : (y <= 1)%Q) by (apply Qle_shift_div_r; [done | by rewrite Qmult_1_l]).
  assert (Hbig : ∀ q : Q, (q <= 100)%Q → (q < inject_Z (2 ^ 53))%Q).
  { intros q Hq. eapply Qle_lt_trans; [exact Hq | done]. }
  destruct (round64_between y 0 1 Hy0) as [Hx0 Hx1];
    [apply Hbig; lra | exact Hy0 | exact Hy1 |].
  change (round64 y) with x in Hx0, Hx1.
  change (inject_Z 0) with 0%Q in Hx0. change (inject_Z 1) with 1%Q in Hx1.
  assert (Hc : (c == 100)%Q) by apply float_of_int_100.
  assert (Hp0 : (0 <= x * c)%Q) by (rewrite Hc; lra).
  assert (Hp1 : (x * c <= 100)%Q) by (rewrite Hc; lra).
  destruct (round64_between (x * c) 0 100 Hp0 (Hbig _ Hp1) Hp0 Hp1) as [Hr0 Hr1].
  change (round64 (x * c)) with pct in Hr0, Hr1.
  split_and!; [exact Hr0 | exact Hr1 | |].
  - intros ->.
    assert (Hy : (y == 1)%Q) by (unfold y; field; intros Hz; rewrite Hz in Ht0; by apply Qlt_irrefl in Ht0).
    assert (Hx : (1 <= x)%Q).
    { destruct (round64_between y 1 1 Hy0) as [Hlo _]; [apply Hbig; lra | | | done];
        rewrite Hy; apply Qle_refl. }
    assert (Hp : (100 <= x * c)%Q) by (rewrite Hc; lra).
    destruct (round64_between (x * c) 100 100 Hp0 (Hbig _ Hp1) Hp Hp1) as [Hlo _].
    apply Qle_antisym; [exact Hr1 | exact Hlo].
  - intros ->.
    assert (Hy : (y == 0)%Q) by (unfold y; field; intros Hz; rewrite Hz in Ht0; by apply Qlt_irrefl in Ht0).
    assert (Hx : (x <= 0)%Q).
    { destruct (round64_between y 0 0 Hy0) as [_ Hup]; [apply Hbig; lra | | | done];
        rewrite Hy; apply Qle_refl. }
    assert (Hp : (x * c <= 0)%Q) by (rewrite Hc; lra).
    destruct (round64_between (x * c) 0 0 Hp0 (Hbig _ Hp1) Hp0 Hp) as [_ Hup].
    apply Qle_antisym; [exact Hup | exact Hr0].
Qed.

Lemma summary_spec (M N : Z) m :
  reachable M N m →
  ∃ limpias pct,
    summary M N m = Some (step_count m, limpias, M * N, pct, total_moves m) ∧
    limpias = M * N - Z.of_nat (size (dirty_cells m)) ∧
    0 ≤ limpias ≤ M * N ∧
    (0 <= pct)%Q ∧ (pct <= 100)%Q ∧
    (dirty_cells m = ∅ → limpias = M * N ∧ (pct == 100)%Q).
Proof.
  intros Hreach. destruct (reachable_dims M N m Hreach) as [HM HN].
  destruct (reachable_inv M N m Hreach) as [Hgrid [Hd _]]. rewrite Hgrid in Hd.
  pose proof (size_in_bounds M N (dirty_cells m) ltac:(lia) ltac:(lia) Hd) as Hsize.
  unfold summary. rewrite (proj2 (Z.eqb_neq (M * N) 0)) by nia.
  set (l := M * N - Z.of_nat (size (dirty_cells m))).
  destruct (percentage_range l (M * N) ltac:(nia) ltac:(lia)) as (H0 & H1 & Hfull & _).
  eexists _, _. split; [reflexivity |]. split_and!; try done; try lia.
  intros Hempty. assert (Hl : l = M * N) by (unfold l; rewrite Hempty, size_empty; lia).
  split; [exact Hl | by apply Hfull].
Qed.

(** X12. The report of a reachable state never divides by zero; the number
    of clean cells it gives is between 0 and the number of cells, and the
    percentage, computed in floating point, is between 0 and 100; it is
    exactly 100 when no cell is dirty. *)
Theorem summary_range (M N : Z) m :
  reachable M N m →
  ∃ limpias pct,
    summary M N m = Some (step_count m, limpias, M * N, pct, total_moves m) ∧
    limpias = M * N - Z.of_nat (size (dirty_cells m)) ∧
    0 ≤ limpias ≤ M * N ∧
    (0 <= pct)%Q ∧ (pct <= 100)%Q ∧
    (dirty_cells m = ∅ → limpias = M * N ∧ (pct == 100)%Q).
Proof. apply summary_spec. Qed.

(** X11. A percentage of 100 makes every cell of the grid dirty: a
    construction that returns has the whole grid in its dirty set. *)
Theorem full_percentage (fuel : nat) g (M N k T : Z) m :
  1 ≤ M → 1 ≤ N → 100 * (M * N) < 2 ^ 52 →
  init fuel g M N k (inject_Z 100) T = Ok m →
  ∀ c : Coord, c ∈ dirty_cells m ↔ 0 ≤ c.1 < M ∧ 0 ≤ c.2 < N.
Proof.
  intros HM HN Hsmall Hinit.
  destruct (init_spec _ _ _ _ _ _ _ _ HM HN Hinit)
    as (Hgrid & _ & _ & _ & _ & _ & Hb & Hsize).
  rewrite Hgrid in Hb.
  rewrite num_sucias_whole in Hsize by (lia || nia).
  rewrite Z.div_mul in Hsize by lia.
  assert (Heq : dirty_cells m = list_to_set (all_cells M N)).
  { apply set_subseteq_size_eq.
    - intros c Hc. by apply elem_of_list_to_set, elem_of_all_cells, Hb.
    - apply Nat2Z.inj_le. rewrite size_all_cells by lia. lia. }
  intros c. rewrite Heq, elem_of_list_to_set, elem_of_all_cells. done.
Qed.

(** X13. The script as a whole: when the construction returns, the run
    ends and the report is printed; it tells of one tick at least and, past
    the first, of no more ticks than the budget, of a number of clean cells
    between 0 and the number of cells, of a percentage between 0 and 100,
    and of no more moves than one per agent and tick. *)
Theorem main_reports (fuel_init fuel_run : nat) (seed_model seed_global : G)
    (M N k : Z) (p : Q) (T : Z) m0 :
  1 ≤ M → 1 ≤ N →
  init fuel_init seed_model M N k p T = Ok m0 →
  Z.max 1 T ≤ Z.of_nat fuel_run →
  ∃ steps limpias pct moves,
    main fuel_init fuel_run seed_model seed_global M N k p T
      = Ok (Some (steps, limpias, M * N, pct, moves)) ∧
    1 ≤ steps ≤ Z.max 1 T ∧
    0 ≤ limpias ≤ M * N ∧
    (0 <= pct)%Q ∧ (pct <= 100)%Q ∧
    0 ≤ moves ≤ steps * Z.max 0 k.
Proof.
  intros HM HN Hinit Hfuel.
  destruct (init_start _ _ _ _ _ _ _ _ Hinit) as (Hrun & Hc0 & _ & HT).
  pose proof (init_num_agents _ _ _ _ _ _ _ _ HM HN Hinit) as Hk.
  destruct (simulate_ends fuel_run seed_global m0 Hrun)
    as (n & g' & m' & Hsim & Hticks & Hc & Hn & Hle & _); [rewrite HT, Hc0; lia |].
  assert (Hreach : reachable M N m').
  { eapply ticks_reach; [| exact Hticks]. by eapply reachable_init. }
  destruct (summary_spec M N m' Hreach)
    as (limpias & pct & Hsum & _ & Hl & Hp0 & Hp1 & _).
  destruct (reachable_run_inv M N m' Hreach) as [Hids _ Htot _].
  assert (Hlen : Z.of_nat (length (agents_list m')) = Z.max 0 k).
  { rewrite <- (length_fmap unique_id), Hids, length_seqZ.
    assert (Hk' : num_agents m' = k); [| rewrite Hk'; lia].
    clear -Hticks Hk. revert g' m' Hticks. induction n as [| n IH]; intros g' m'.
    - cbn. by intros [= <- <-].
    - cbn [ticks]. destruct (ticks n seed_global m0) as [[g1 m1] | |]; [| done | done].
      cbn. intros Hstep.
      destruct (step_loop g1 m1) as (? & ? & ? & ? & Heq & _ & _ & _ & _ & Hk1 & _).
      rewrite Hstep in Heq. injection Heq as <- <-. rewrite Hk1. by eapply IH. }
  exists (step_count m'), limpias, pct, (total_moves m').
  unfold main. rewrite Hinit. cbn. rewrite Hsim. cbn. rewrite Hsum.
  split; [reflexivity |]. rewrite Hlen in Htot. rewrite HT, Hc0 in *.
  split_and!; try done; lia.
Qed.
End Report.

Section Covered.
Context {G : Type} `{Random G}.
Implicit Types (g : G) (m : VacuumModel G).

(** X14. A tick that begins with an agent on every dirty cell, and so one
    that begins without a dirty cell, ends with an empty dirty set and a
    Finished engine. *)
Theorem tick_finishes_when_covered g m :
  (∀ c, c ∈ dirty_cells m → ∃ a, a ∈ agents_list m ∧ pos a = c) →
  ∃ g' m',
    step g m = Ok (g', m') ∧ dirty_cells m' = ∅ ∧ running m' = false.
Proof.
  intros Hcov.
  destruct (step_loop g m) as (g0 & order & g' & m' & Hstep & Hperm & Hloop & _).
  apply agents_loop_dirty in Hloop. rewrite Hperm in Hloop.
  assert (Hempty : dirty_cells m' = ∅).
  { rewrite Hloop. apply set_eq. intros c. split; [| by intros ?%not_elem_of_empty].
    intros [Hc Hout]%elem_of_difference. destruct (Hcov c Hc) as (a & Ha & <-).
    exfalso. apply Hout, elem_of_list_to_set, list_elem_of_fmap. eauto. }
  exists g', m'. split; [exact Hstep |]. split; [exact Hempty |].
  destruct (step_running _ _ _ _ Hstep) as (_ & _ & Hfin). apply Hfin. auto.
Qed.
End Covered.

(** The construction of [demo_model], the state it is reached in. *)
Lemma demo_model_reach : reachable 2 2 demo_model.
Proof. eapply reachable_init; [lia | lia | exact demo_model_init]. Qed.

(** The agents of [demo_model]. *)
Lemma construction_agents_witness :
  unique_id <$> agents_list demo_model = seqZ 0 3 ∧
  length (agents_list demo_model) = Z.to_nat 3 ∧
  Forall (λ a, pos a = (0, 0) ∧ moves a = 0) (agents_list demo_model) ∧
  num_agents demo_model = 3 ∧ tiempo_max demo_model = 4 ∧
  grid demo_model = {| width := 2; height := 2 |} ∧
  step_count demo_model = 0 ∧ total_moves demo_model = 0 ∧
  running demo_model = true.
Proof.
  apply (construction_agents 10 1 2 2 3 (50 # 1) 4 demo_model);
    [lia | lia | exact demo_model_init].
Defined.

Lemma population_fixed_witness :
  unique_id <$> agents_list demo_model ≡ₚ seqZ 0 (num_agents demo_model) ∧
  NoDup (unique_id <$> agents_list demo_model) ∧
  length (agents_list demo_model) = Z.to_nat (num_agents demo_model) ∧
  grid demo_model = {| width := 2; height := 2 |}.
Proof. apply (population_fixed 2 2 demo_model). exact demo_model_reach. Defined.

Lemma tick_clean_or_move_witness :
  ∃ g' m',
    step (7 : Z) demo_model = Ok (g', m') ∧
    (total_moves m' - total_moves demo_model)
    + (Z.of_nat (size (dirty_cells demo_model)) - Z.of_nat (size (dirty_cells m')))
    = Z.of_nat (length (agents_list demo_model)).
Proof. apply (tick_clean_or_move 2 2 7 demo_model); [exact demo_model_reach | lia]. Defined.

(** An agent on the clean cell (0,0) of a grid of two columns. *)
Lemma stuck_iff_single_cell_witness :
  (2 * 1 = 1 →
   agent_step {| width := 2; height := 1 |} (7 : Z) ∅ (fresh_agent 0)
     = Ok (7, ∅, fresh_agent 0)) ∧
  (1 < 2 * 1 →
   ∃ g' a',
     agent_step {| width := 2; height := 1 |} (7 : Z) ∅ (fresh_agent 0)
       = Ok (g', ∅, a') ∧
     pos a' ≠ pos (fresh_agent 0) ∧
     in_bounds {| width := 2; height := 1 |} (pos a') ∧
     moves a' = moves (fresh_agent 0) + 1 ∧
     unique_id a' = unique_id (fresh_agent 0)).
Proof.
  apply (stuck_iff_single_cell {| width := 2; height := 1 |} 7 ∅ (fresh_agent 0));
    [cbn; lia | cbn; lia | split; cbn; lia | apply not_elem_of_empty].
Defined.

Lemma total_moves_bound_witness :
  0 ≤ total_moves demo_model
    ≤ step_count demo_model * Z.of_nat (length (agents_list demo_model)) ∧
  ∃ g' m', step (7 : Z) demo_model = Ok (g', m') ∧
           total_moves demo_model ≤ total_moves m' ≤
             total_moves demo_model + Z.of_nat (length (agents_list demo_model)).
Proof. apply (total_moves_bound 2 2 7 demo_model). exact demo_model_reach. Defined.

Lemma agents_within_reach_witness :
  0 ≤ (pos (fresh_agent 1)).1 ≤ step_count demo_model ∧
  0 ≤ (pos (fresh_agent 1)).2 ≤ step_count demo_model.
Proof.
  apply (agents_within_reach 2 2 demo_model (fresh_agent 1));
    [exact demo_model_reach | cbn; apply list_elem_of_further, list_elem_of_here].
Defined.

(** The cell (0,1) of [demo_model] after one tick. *)
Lemma far_cells_stay_dirty_witness :
  ∃ g' m, ticks 1 (7 : Z) demo_model = Ok (g', m) ∧ (0, 1) ∈ dirty_cells m.
Proof.
  eexists _, _. split; [vm_compute; reflexivity |].
  eapply (far_cells_stay_dirty 10 1 2 2 3 (50 # 1) 4 demo_model 1 7 _ _ (0, 1));
    [lia | lia | exact demo_model_init | vm_compute; reflexivity
    | vm_compute; reflexivity | cbn; lia].
Defined.

Lemma driver_terminates_witness :
  ∃ g' m',
    simulate 4 (7 : Z) demo_model = Ok (g', m') ∧
    running m' = false ∧
    step_count demo_model + 1 ≤ step_count m'
      ≤ Z.max (step_count demo_model + 1) (tiempo_max demo_model) ∧
    (dirty_cells m' = ∅ ∨ tiempo_max demo_model ≤ step_count m') ∧
    dirty_cells m' ⊆ dirty_cells demo_model.
Proof. apply (driver_terminates 4 7 demo_model); [reflexivity | cbn; lia]. Defined.

(** A dirty cell, no agent and a budget of three ticks. *)
Lemma no_agents_run_witness :
  ∃ m',
    simulate 3 (7 : Z) idle_model = Ok (7, m') ∧
    running m' = false ∧
    step_count m' = Z.max (step_count idle_model + 1) (tiempo_max idle_model) ∧
    dirty_cells m' = dirty_cells idle_model ∧
    total_moves m' = total_moves idle_model.
Proof.
  apply (no_agents_run 3 7 idle_model); [reflexivity | reflexivity | | cbn; lia].
  apply (non_empty_inhabited_L (0, 0)). vm_compute. reflexivity.
Defined.

(** A grid of 2 x 2 cells seeded at 100 percent. *)
Lemma full_percentage_witness :
  ∃ m, init 10 (1 : Z) 2 2 3 (inject_Z 100) 4 = Ok m ∧
       ∀ c : Coord, c ∈ dirty_cells m ↔ 0 ≤ c.1 < 2 ∧ 0 ≤ c.2 < 2.
Proof.
  eexists. split; [vm_compute; reflexivity |].
  eapply (full_percentage 10 1 2 2 3 4); [lia | lia | lia | vm_compute; reflexivity].
Defined.

Lemma summary_range_witness :
  ∃ limpias pct,
    summary 2 2 demo_model
      = Some (step_count demo_model, limpias, 2 * 2, pct, total_moves demo_model) ∧
    limpias = 2 * 2 - Z.of_nat (size (dirty_cells demo_model)) ∧
    0 ≤ limpias ≤ 2 * 2 ∧
    (0 <= pct)%Q ∧ (pct <= 100)%Q ∧
    (dirty_cells demo_model = ∅ → limpias = 2 * 2 ∧ (pct == 100)%Q).
Proof. apply (summary_range 2 2 demo_model). exact demo_model_reach. Defined.

(** The script on a 2 x 2 grid, half dirty, three agents and four ticks. *)
Lemma main_reports_witness :
  ∃ steps limpias pct moves,
    main 10 4 (1 : Z) 7 2 2 3 (50 # 1) 4
      = Ok (Some (steps, limpias, 2 * 2, pct, moves)) ∧
    1 ≤ steps ≤ Z.max 1 4 ∧
    0 ≤ limpias ≤ 2 * 2 ∧
    (0 <= pct)%Q ∧ (pct <= 100)%Q ∧
    0 ≤ moves ≤ steps * Z.max 0 3.
Proof.
  apply (main_reports 10 4 1 7 2 2 3 (50 # 1) 4 demo_model);
    [lia | lia | exact demo_model_init | cbn; lia].
Defined.

(** A tick of [finished_model], which has no dirty cell. *)
Lemma tick_finishes_when_covered_witness :
  ∃ g' m',
    step (3 : Z) finished_model = Ok (g', m') ∧ dirty_cells m' = ∅ ∧ running m' = false.
Proof.
  apply (tick_finishes_when_covered 3 finished_model).
  intros c Hc. by apply not_elem_of_empty in Hc.
Defined.
